(** * Constrained k-medoids centre placement: model of [center_optimizer.cpp]

    The development embeds the optimisation core of [KMedoidsOptimizer]
    (distance lookup, candidate filtering, medoid initialisation, cost
    evaluation, swap local search, assignment) and states its properties.

    Modelling conventions.
    - [double] is IEEE-754 binary64, i.e. Rocq's primitive [float]; comparisons
      are [PrimFloat.ltb] and friends, so NaN and the infinities behave as in
      the compiled program.
    - [int] identifiers and [k] are [Z]; indices into [std::vector]s are [nat].
    - The immutable members of the class are a record; the mutable members
      [valid_candidates] and [rng] are passed explicitly.
    - [std::cout] is a list of events, appended in program order.
    - [sin], [cos] and [atan2] come from libm and are parameters; so are
      [std::stoi] and [std::stod], with [None] for the exception they throw.
    - A file is the list of lines [std::getline] yields, or is missing; a
      call returns, throws, or has no defined behaviour ([outcome]). *)

From Stdlib Require Import ZArith Floats Lia.
From stdpp Require Import base option list strings gmap pretty.

(** ** Comparisons of [double]s as propositions *)

Definition flt (x y : float) : Prop := PrimFloat.ltb x y = true.
Definition fle (x y : float) : Prop := PrimFloat.leb x y = true.
(** [x == x] fails exactly for NaN. *)
Definition ordered (x : float) : Prop := PrimFloat.eqb x x = true.

(** ** Data model *)

(** [struct Point]; the default constructor zeroes every numeric field. *)
Record Point := mkPoint {
  id : Z;
  lat : float;
  lon : float;
  resource_quantity : float;
  land_type : string;
  slope : float;
  elevation : float
}.

Definition Point_default : Point := mkPoint 0 0 0 0 "" 0 0.

#[export] Instance Point_inhabited : Inhabited Point := populate Point_default.

(** The functions of libm the program calls. *)
Record Libm := mkLibm {
  sin : float -> float;
  cos : float -> float;
  atan2 : float -> float -> float
}.

(** The members of [KMedoidsOptimizer] that stay fixed once loading is done.
    [distance_matrix] is keyed by [std::to_string] of the identifiers. *)
Record KMedoidsOptimizer := mkOptimizer {
  points : list Point;
  distance_matrix : gmap string (gmap string float);
  k : Z;
  min_distance_km : float;
  exclude_land_types : gset string;
  max_slope : float
}.

(** [std::uniform_int_distribution<int>(0, hi)] applied to a generator of
    type [G]: a draw in the closed range and the advanced generator. *)
Class UniformRng (G : Type) := {
  uniform_int : nat -> G -> nat * G;
  uniform_int_le : forall hi g, (uniform_int hi g).1 <= hi
}.

(** What the optimiser writes to standard output. *)
Inductive event :=
| EvCandidates (n : nat)
| EvNotEnough (n : nat) (k : Z)
| EvCannotFind (k : Z)
| EvInitialCost (c : float)
| EvIteration (it : nat) (c : float)
| EvConverged (it : nat).

(** [std::to_string(int)]. *)
Definition to_string (n : Z) : string := pretty n.

(** [std::numeric_limits<double>::max()]. *)
Definition DBL_MAX : float := 0x1.fffffffffffffp+1023%float.

Definition M_PI : float := 0x1.921fb54442d18p+1%float.

(** [std::min(a, b)] is [(b < a) ? b : a]. *)
Definition fmin (a b : float) : float := if PrimFloat.ltb b a then b else a.

(** The conversion of the [int] [k] to [size_t] in [valid_candidates.size() < k]
    (64-bit [size_t]). *)
Definition size_t_of_int (n : Z) : Z := n mod 2 ^ 64.

Definition max_iterations : nat := 50.

(** ** Operations *)

Section Optimizer.

Variable libm : Libm.
Variable self : KMedoidsOptimizer.
Context {G : Type} `{UniformRng G}.

(** [points[i]]; the callers only pass indices taken from
    [valid_candidates], which are in range. *)
Definition point_at (i : nat) : Point := points self !!! i.

Definition haversine_distance (lat1 lon1 lat2 lon2 : float) : float :=
  let R := 6371000%float in
  let dlat := ((lat2 - lat1) * M_PI / 180.0)%float in
  let dlon := ((lon2 - lon1) * M_PI / 180.0)%float in
  let a :=
    (sin libm (dlat / 2) * sin libm (dlat / 2)
     + cos libm (lat1 * M_PI / 180.0) * cos libm (lat2 * M_PI / 180.0)
       * sin libm (dlon / 2) * sin libm (dlon / 2))%float in
  let c := (2 * atan2 libm (PrimFloat.sqrt a) (PrimFloat.sqrt (1 - a)))%float in
  (R * c)%float.

(** The scan of [get_distance] for the two end points: every point is
    visited, so the last point carrying an identifier is the one kept. *)
Definition find_endpoints (from_id to_id : Z) : Point * Point :=
  fold_left
    (fun '(from_point, to_point) p =>
       (if bool_decide (id p = from_id) then p else from_point,
        if bool_decide (id p = to_id) then p else to_point))
    (points self) (Point_default, Point_default).

(** The entry stored under the ordered key pair, if both levels have it. *)
Definition table_entry (from_key to_key : string) : option float :=
  row ← distance_matrix self !! from_key; row !! to_key.

Definition get_distance (from_id to_id : Z) : float :=
  let from_key := to_string from_id in
  let to_key := to_string to_id in
  match table_entry from_key to_key with
  | Some d => d
  | None =>
      let '(from_point, to_point) := find_endpoints from_id to_id in
      haversine_distance (lat from_point) (lon from_point)
                         (lat to_point) (lon to_point)
  end.

(** [filter_candidates], from index [i] on. *)
Fixpoint filter_from (i : nat) (ps : list Point) : list nat :=
  match ps with
  | [] => []
  | p :: ps' =>
      if bool_decide (land_type p ∈ exclude_land_types self)
      then filter_from (S i) ps'
      else if PrimFloat.ltb (max_slope self) (slope p)
      then filter_from (S i) ps'
      else i :: filter_from (S i) ps'
  end.

Definition filter_candidates : list nat * list event :=
  let valid_candidates := filter_from 0 (points self) in
  (valid_candidates, [EvCandidates (length valid_candidates)]).

(** The separation threshold in metres, as both checks compute it. *)
Definition min_distance_m : float := (min_distance_km self * 1000)%float.

Definition too_close (a b : nat) : bool :=
  PrimFloat.ltb (get_distance (id (point_at a)) (id (point_at b))) min_distance_m.

Fixpoint satisfies_min_distance (medoids : list nat) (new_candidate : nat) : bool :=
  match medoids with
  | [] => true
  | medoid_idx :: rest =>
      if too_close new_candidate medoid_idx then false
      else satisfies_min_distance rest new_candidate
  end.

(** Distance from a point to the nearest medoid, as the inner loop of
    [calculate_total_cost] accumulates it. *)
Definition min_dist_to (p : Point) (medoids : list nat) : float :=
  fold_left
    (fun min_dist medoid_idx =>
       fmin min_dist (get_distance (id p) (id (point_at medoid_idx))))
    medoids DBL_MAX.

Definition calculate_total_cost (medoids : list nat) : float :=
  fold_left
    (fun total_cost p =>
       (total_cost + min_dist_to p medoids * resource_quantity p)%float)
    (points self) 0%float.

(** Inner loop of [get_assignments] from position [j] on. *)
Fixpoint assign_scan (p : Point) (j : nat) (medoids : list nat)
    (min_dist : float) (best_medoid : Z) : Z :=
  match medoids with
  | [] => best_medoid
  | m :: rest =>
      let dist := get_distance (id p) (id (point_at m)) in
      if PrimFloat.ltb dist min_dist
      then assign_scan p (S j) rest dist (Z.of_nat j)
      else assign_scan p (S j) rest min_dist best_medoid
  end.

Definition get_assignments (medoids : list nat) : list Z :=
  map (fun p => assign_scan p 0 medoids DBL_MAX (-1)) (points self).

(** *** Initialisation *)

(** The candidates that may come next: not yet chosen and far enough from
    every chosen medoid. *)
Definition valid_next_of (available_candidates medoids : list nat) : list nat :=
  List.filter
    (fun candidate_idx =>
       negb (bool_decide (candidate_idx ∈ medoids))
       && satisfies_min_distance medoids candidate_idx)
    available_candidates.

(** The loop over [i = 1 .. k-1]; [n] counts the iterations left. *)
Fixpoint init_loop (n : nat) (available_candidates medoids : list nat) (rng : G)
    : list nat * G * list event :=
  match n with
  | 0 => (medoids, rng, [])
  | S n' =>
      match available_candidates with
      | [] => (medoids, rng, [])
      | _ :: _ =>
          let valid_next := valid_next_of available_candidates medoids in
          match valid_next with
          | [] => (medoids, rng, [EvCannotFind (k self)])
          | _ :: _ =>
              let '(j, rng') := uniform_int (length valid_next - 1) rng in
              init_loop n' available_candidates (medoids ++ [valid_next !!! j]) rng'
          end
      end
  end.

Definition initialize_medoids (valid_candidates : list nat) (rng : G)
    : list nat * G * list event :=
  let available_candidates := valid_candidates in
  let '(medoids, rng1) :=
    match available_candidates with
    | [] => ([], rng)
    | _ :: _ =>
        let '(first_idx, rng') :=
          uniform_int (length available_candidates - 1) rng in
        ([available_candidates !!! first_idx], rng')
    end in
  init_loop (Z.to_nat (k self - 1)) available_candidates medoids rng1.

(** *** Local search *)

Record search_state := mkSearch {
  best_medoids : list nat;
  best_cost : float;
  improved : bool;
  iterations : nat;
  output : list event
}.

(** The separation check of [optimize]: each position against the later
    ones. *)
Fixpoint pairwise_valid (new_medoids : list nat) : bool :=
  match new_medoids with
  | [] => true
  | mj :: rest =>
      forallb (fun ml => negb (too_close mj ml)) rest && pairwise_valid rest
  end.

(** One pass of the body of the innermost [for] of [optimize]. *)
Definition try_swap (i candidate_idx : nat) (st : search_state)
    : search_state :=
  if bool_decide (candidate_idx ∈ best_medoids st) then st
  else
    let new_medoids := <[i := candidate_idx]> (best_medoids st) in
    if negb (pairwise_valid new_medoids) then st
    else
      let new_cost := calculate_total_cost new_medoids in
      if PrimFloat.ltb new_cost (best_cost st)
      then mkSearch new_medoids new_cost true (iterations st) (output st)
      else st.

Definition scan_candidates (valid_candidates : list nat) (i : nat)
    (st : search_state) : search_state :=
  fold_left (fun st candidate_idx => try_swap i candidate_idx st)
            valid_candidates st.

(** The loop over positions.  A swap keeps the size of the set, so the
    bound [best_medoids.size()] is the same at every test. *)
Definition scan_positions (valid_candidates : list nat) (st : search_state)
    : search_state :=
  fold_left (fun st i => scan_candidates valid_candidates i st)
            (seq 0 (length (best_medoids st))) st.

(** One iteration of the [while] loop. *)
Definition round (valid_candidates : list nat) (st : search_state) : search_state :=
  let st0 := mkSearch (best_medoids st) (best_cost st) false
                      (S (iterations st)) (output st) in
  let st1 := scan_positions valid_candidates st0 in
  if improved st1
  then mkSearch (best_medoids st1) (best_cost st1) (improved st1) (iterations st1)
                (output st1 ++ [EvIteration (iterations st1) (best_cost st1)])
  else st1.

(** The test of the [while] loop. *)
Definition keep_searching (st : search_state) : bool :=
  improved st && (iterations st <? max_iterations).

(** The [while] loop; [fuel] bounds the number of iterations. *)
Fixpoint search_loop (fuel : nat) (valid_candidates : list nat)
    (st : search_state) : search_state :=
  match fuel with
  | 0 => st
  | S fuel' =>
      if keep_searching st
      then search_loop fuel' valid_candidates (round valid_candidates st)
      else st
  end.

Definition local_search (valid_candidates : list nat) (st : search_state)
    : search_state :=
  search_loop max_iterations valid_candidates st.

(** The state in which the [while] loop of [optimize] is entered. *)
Definition search_start (medoids : list nat) (out : list event) : search_state :=
  let best_cost := calculate_total_cost medoids in
  mkSearch medoids best_cost true 0 (out ++ [EvInitialCost best_cost]).

(** The test [valid_candidates.size() < k] of [optimize], an unsigned
    comparison. *)
Definition infeasible : bool :=
  (Z.of_nat (length filter_candidates.1) <? size_t_of_int (k self))%Z.

(** [optimize]: the returned pair, the generator and the output. *)
Definition optimize (rng : G) : (list nat * float) * G * list event :=
  let '(valid_candidates, out0) := filter_candidates in
  if infeasible
  then
    (([], DBL_MAX), rng,
     out0 ++ [EvNotEnough (length valid_candidates) (k self)])
  else
    let '(medoids, rng', out1) := initialize_medoids valid_candidates rng in
    let st := local_search valid_candidates (search_start medoids (out0 ++ out1)) in
    ((best_medoids st, best_cost st), rng',
     output st ++ [EvConverged (iterations st)]).

(** *** Separation of a medoid list *)

Definition distance_between (a b : nat) : float :=
  get_distance (id (point_at a)) (id (point_at b)).

(** What the initialiser checks when it appends a medoid: the distance from
    the later member to each earlier one is not below the threshold. *)
Definition separated_back (medoids : list nat) : Prop :=
  forall j l a b, j < l -> medoids !! j = Some a -> medoids !! l = Some b ->
    PrimFloat.ltb (distance_between b a) min_distance_m = false.

(** What the round loop checks on a trial set: the distance from the earlier
    member to each later one is not below the threshold. *)
Definition separated_fwd (medoids : list nat) : Prop :=
  forall j l a b, j < l -> medoids !! j = Some a -> medoids !! l = Some b ->
    PrimFloat.ltb (distance_between a b) min_distance_m = false.

(** No ordered pair of distinct positions is below the threshold. *)
Definition separated (medoids : list nat) : Prop :=
  forall j l a b, j <> l -> medoids !! j = Some a -> medoids !! l = Some b ->
    PrimFloat.ltb (distance_between a b) min_distance_m = false.

(** Every ordered pair of distinct positions is at least the threshold. *)
Definition at_least_min_apart (medoids : list nat) : Prop :=
  forall j l a b, j <> l -> medoids !! j = Some a -> medoids !! l = Some b ->
    fle min_distance_m (distance_between a b).

(** The oracle answers the same in both directions on a set of indices. *)
Definition symmetric_on (cands : list nat) : Prop :=
  forall a b, a ∈ cands -> b ∈ cands -> distance_between a b = distance_between b a.

(** The oracle answers no NaN on a set of indices. *)
Definition ordered_on (cands : list nat) : Prop :=
  forall a b, a ∈ cands -> b ∈ cands -> ordered (distance_between a b).

(** *** Statements the properties refer to *)

(** The trials of one round in the order they are made: positions in
    order, and for each position the candidates in order. *)
Definition trial_order (m : nat) (valid_candidates : list nat) : list (nat * nat) :=
  flat_map (fun i => map (pair i) valid_candidates) (seq 0 m).

Definition distance_from (p : Point) (m : nat) : float :=
  get_distance (id p) (id (point_at m)).




(** Two generators answer the next [n] requests alike, whatever ranges are
    requested. *)
Fixpoint same_draws (n : nat) (g1 g2 : G) : Prop :=
  match n with
  | 0 => True
  | S n' =>
      forall hi,
        (uniform_int hi g1).1 = (uniform_int hi g2).1
        /\ same_draws n' (uniform_int hi g1).2 (uniform_int hi g2).2
  end.

(** What a scan started with the flag cleared can lead to, relative to the
    set [m0] and cost [c0] it started from. *)
Definition scan_outcome (m0 : list nat) (c0 : float) (st : search_state) : Prop :=
  (improved st = false /\ best_medoids st = m0 /\ best_cost st = c0)
  \/ (improved st = true /\ flt (best_cost st) c0).

(** What every medoid list built by the initialiser satisfies. *)
Definition init_ok (vc medoids : list nat) : Prop :=
  separated_back medoids /\ medoids ⊆ vc /\ NoDup medoids.

(** *** Further statements *)

(** A point may host a centre: its land type is not excluded and its slope
    does not exceed the threshold. *)
Definition eligible (p : Point) : Prop :=
  (land_type p ∉ exclude_land_types self)
  /\ PrimFloat.ltb (max_slope self) (slope p) = false.

(** The last loaded point that carries identifier [x], or the
    default-constructed point when there is none. *)
Definition last_with_id (x : Z) : Point :=
  default Point_default
    (last (List.filter (fun p => bool_decide (id p = x)) (points self))).

(** No single swap of a candidate into the set passes the separation check
    with a cost below [c]. *)
Definition swap_optimal (valid_candidates medoids : list nat) (c : float) : Prop :=
  forall i cand,
    i < length medoids -> cand ∈ valid_candidates -> cand ∉ medoids ->
    pairwise_valid (<[i := cand]> medoids) = true ->
    PrimFloat.ltb (calculate_total_cost (<[i := cand]> medoids)) c = false.

End Optimizer.

(** ** Loading, reporting and the entry point *)

(** [std::stoi] and [std::stod]; [None] stands for the exception they
    throw. *)
Record Parsers := mkParsers {
  stoi : string -> option Z;
  stod : string -> option float
}.

(** How a call ends: it returns, an exception leaves it (nothing in the
    program catches one), or it indexes a vector out of range. *)
Inductive outcome (A : Type) :=
| Returns (a : A)
| Throws
| Undefined.

Arguments Returns {A} a.
Arguments Throws {A}.
Arguments Undefined {A}.

#[export] Instance outcome_bind : MBind outcome := fun A B f x =>
  match x with
  | Returns a => f a
  | Throws => Throws
  | Undefined => Undefined
  end.

(** What the loaders write. *)
Inductive load_event :=
| ErrCannotOpen (filename : string)
| LoadedPoints (n : nat)
| LoadedZones (n : nat)
| LoadedDistances.

(** What [print_results] writes. *)
Inductive report_line :=
| BestCentersHeader
| CenterLine (p : Point)
| AssignmentsHeader
| AssignmentLine (point_id center_id : Z)
| TotalCostLine (c : float).

(** What [main] writes, in order. *)
Inductive main_event :=
| Usage (program : string)
| Load (e : load_event)
| Run (e : event)
| Report (l : report_line)
| NoSolution.

(** The delimiter [','] of the CSV files. *)
Definition comma : Ascii.ascii := Ascii.ascii_of_nat 44.

(** The tokens that successive calls [std::getline(ss, token, ',')] on a
    stream holding [s] yield until one fails; [cur] is the token being
    read.  A call fails only when nothing is left to read, so a comma at the
    very end does not start a further, empty token. *)
Fixpoint tokens_from (cur s : string) : list string :=
  match s with
  | EmptyString => [cur]
  | String c s' =>
      if Ascii.eqb c comma
      then cur :: match s' with
                  | EmptyString => []
                  | String _ _ => tokens_from "" s'
                  end
      else tokens_from (cur +:+ String c "") s'
  end.

Definition getline_tokens (s : string) : list string :=
  match s with
  | EmptyString => []
  | String _ _ => tokens_from "" s
  end.

Fixpoint has_comma (s : string) : bool :=
  match s with
  | EmptyString => false
  | String c s' => Ascii.eqb c comma || has_comma s'
  end.

(** Fields written one after the other with a comma between them. *)
Fixpoint join_commas (fields : list string) : string :=
  match fields with
  | [] => ""
  | [t] => t
  | t :: rest => t +:+ "," +:+ join_commas rest
  end.

(** [if (std::getline(ss, token, ',')) field = parse(token);] *)
Definition parse_field {A} (parse : string -> option A) (token : option string)
    (current : A) : outcome A :=
  match token with
  | None => Returns current
  | Some t =>
      match parse t with
      | Some v => Returns v
      | None => Throws
      end
  end.

(** [distance_matrix[from_key][to_key] = d]. *)
Definition matrix_store (dm : gmap string (gmap string float))
    (from_key to_key : string) (d : float) : gmap string (gmap string float) :=
  <[from_key := <[to_key := d]> (default ∅ (dm !! from_key))]> dm.

Definition matrix_entry (dm : gmap string (gmap string float))
    (from_key to_key : string) : option float :=
  row ← dm !! from_key; row !! to_key.

(** The optimiser after [distance_matrix[to_string(from_id)][to_string(to_id)]
    = d], the store [load_distances] makes for a cell. *)
Definition store_distance (self : KMedoidsOptimizer) (from_id to_id : Z)
    (d : float) : KMedoidsOptimizer :=
  mkOptimizer (points self)
              (matrix_store (distance_matrix self)
                            (to_string from_id) (to_string to_id) d)
              (k self) (min_distance_km self) (exclude_land_types self)
              (max_slope self).

(** A field of a record read from a line: the value [v] is what [parse]
    makes of the token when the line has that token, and the initial value
    of the field when the line is too short. *)
Definition field_ok {A} (parse : string -> option A) (token : option string)
    (initial v : A) : Prop :=
  match token with
  | Some t => parse t = Some v
  | None => v = initial
  end.

Section Loading.

Variable parsers : Parsers.
(** The lines [std::getline(file, line)] yields for a file name, or [None]
    when the file cannot be opened. *)
Variable fs : string -> option (list string).

(** One pass of the body of the [while] of [load_points]. *)
Definition parse_point_line (line : string) : outcome Point :=
  let tokens := getline_tokens line in
  id' ← parse_field (stoi parsers) (tokens !! 0) 0%Z;
  lat' ← parse_field (stod parsers) (tokens !! 1) 0%float;
  lon' ← parse_field (stod parsers) (tokens !! 2) 0%float;
  quantity ← parse_field (stod parsers) (tokens !! 3) 0%float;
  Returns (mkPoint id' lat' lon' quantity "" 0 0).

Fixpoint read_points (lines : list string) : outcome (list Point) :=
  match lines with
  | [] => Returns []
  | line :: rest =>
      p ← parse_point_line line;
      ps ← read_points rest;
      Returns (p :: ps)
  end.

Definition load_points (filename : string) (self : KMedoidsOptimizer)
    : outcome (KMedoidsOptimizer * list load_event) :=
  match fs filename with
  | None => Returns (self, [ErrCannotOpen filename])
  | Some lines =>
      new_points ← read_points (tail lines);
      let points' := points self ++ new_points in
      Returns (mkOptimizer points' (distance_matrix self) (k self)
                           (min_distance_km self) (exclude_land_types self)
                           (max_slope self),
               [LoadedPoints (length points')])
  end.

(** One pass of the body of the [while] of [load_zone_features]. *)
Definition parse_zone_line (line : string) : outcome Point :=
  let tokens := getline_tokens line in
  id' ← parse_field (stoi parsers) (tokens !! 0) 0%Z;
  slope' ← parse_field (stod parsers) (tokens !! 1) 0%float;
  elevation' ← parse_field (stod parsers) (tokens !! 2) 0%float;
  land_type' ← parse_field Some (tokens !! 3) "";
  Returns (mkPoint id' 0 0 0 land_type' slope' elevation').

Fixpoint read_zones (lines : list string) : outcome (list Point) :=
  match lines with
  | [] => Returns []
  | line :: rest =>
      z ← parse_zone_line line;
      zs ← read_zones rest;
      Returns (z :: zs)
  end.

(** [zone_map[zone.id] = zone] for every record, in file order. *)
Definition zone_map_of (zones : list Point) : gmap Z Point :=
  fold_left (fun zone_map zone => <[id zone := zone]> zone_map) zones ∅.

Definition merge_zone (zone_map : gmap Z Point) (point : Point) : Point :=
  match zone_map !! id point with
  | Some zone =>
      mkPoint (id point) (lat point) (lon point) (resource_quantity point)
              (land_type zone) (slope zone) (elevation zone)
  | None => point
  end.

Definition load_zone_features (filename : string) (self : KMedoidsOptimizer)
    : outcome (KMedoidsOptimizer * list load_event) :=
  match fs filename with
  | None => Returns (self, [ErrCannotOpen filename])
  | Some lines =>
      zones ← read_zones (tail lines);
      let zone_map := zone_map_of zones in
      Returns (mkOptimizer (map (merge_zone zone_map) (points self))
                           (distance_matrix self) (k self)
                           (min_distance_km self) (exclude_land_types self)
                           (max_slope self),
               [LoadedZones (size zone_map)])
  end.

(** The inner [while] of [load_distances] from column [col] on. *)
Fixpoint fill_cells (pts : list Point) (row col : nat) (tokens : list string)
    (dm : gmap string (gmap string float))
    : outcome (gmap string (gmap string float)) :=
  match tokens with
  | [] => Returns dm
  | token :: rest =>
      if (row <? length pts) && (col <? length pts)
      then
        match stod parsers token with
        | Some dist =>
            fill_cells pts row (S col) rest
              (matrix_store dm (to_string (id (pts !!! row)))
                               (to_string (id (pts !!! col)))
                               (dist * 1000)%float)
        | None => Throws
        end
      else fill_cells pts row (S col) rest dm
  end.

(** The outer [while] of [load_distances] from row [row] on; the first
    token of a line is the row label. *)
Fixpoint fill_rows (pts : list Point) (row : nat) (lines : list string)
    (dm : gmap string (gmap string float))
    : outcome (gmap string (gmap string float)) :=
  match lines with
  | [] => Returns dm
  | line :: rest =>
      dm' ← fill_cells pts row 0 (tail (getline_tokens line)) dm;
      fill_rows pts (S row) rest dm'
  end.

Definition load_distances (filename : string) (self : KMedoidsOptimizer)
    : outcome (KMedoidsOptimizer * list load_event) :=
  match fs filename with
  | None => Returns (self, [ErrCannotOpen filename])
  | Some lines =>
      dm ← fill_rows (points self) 0 (tail lines) (distance_matrix self);
      Returns (mkOptimizer (points self) dm (k self) (min_distance_km self)
                           (exclude_land_types self) (max_slope self),
               [LoadedDistances])
  end.

End Loading.

Section Reporting.

Variable libm : Libm.
Variable self : KMedoidsOptimizer.

(** [v[i]] for a vector [v]: out of range there is no defined behaviour. *)
Definition vector_at {A} (v : list A) (i : Z) : outcome A :=
  if (0 <=? i)%Z
  then match v !! Z.to_nat i with
       | Some x => Returns x
       | None => Undefined
       end
  else Undefined.

Fixpoint center_lines (medoids : list nat) : outcome (list report_line) :=
  match medoids with
  | [] => Returns []
  | medoid_idx :: rest =>
      p ← vector_at (points self) (Z.of_nat medoid_idx);
      ls ← center_lines rest;
      Returns (CenterLine p :: ls)
  end.

(** The lines for the points [ps] with their assignments [assignments]. *)
Fixpoint assignment_lines (medoids : list nat) (ps : list Point)
    (assignments : list Z) : outcome (list report_line) :=
  match ps, assignments with
  | p :: ps', a :: assignments' =>
      medoid_idx ← vector_at medoids a;
      center ← vector_at (points self) (Z.of_nat medoid_idx);
      ls ← assignment_lines medoids ps' assignments';
      Returns (AssignmentLine (id p) (id center) :: ls)
  | _, _ => Returns []
  end.

Definition print_results (medoids : list nat) (total_cost : float)
    : outcome (list report_line) :=
  centers ← center_lines medoids;
  lines ← assignment_lines medoids (points self)
             (get_assignments libm self medoids);
  Returns ([BestCentersHeader] ++ centers ++ [AssignmentsHeader] ++ lines
           ++ [TotalCostLine total_cost]).

End Reporting.

Section Main.

Variable libm : Libm.
Variable parsers : Parsers.
Variable fs : string -> option (list string).
Context {G : Type} `{UniformRng G}.

(** The optional arguments of [main]. *)
Definition arg_min_distance (argv : list string) : outcome float :=
  match argv !! 5 with
  | Some a => parse_field (stod parsers) (Some a) 0%float
  | None => Returns 2.0%float
  end.

Definition arg_exclude_types (argv : list string) : gset string :=
  match argv !! 6 with
  | Some a =>
      if bool_decide (a = "none") then ∅
      else list_to_set (getline_tokens a)
  | None => ∅
  end.

Definition arg_max_slope (argv : list string) : outcome float :=
  match argv !! 7 with
  | Some a => parse_field (stod parsers) (Some a) 0%float
  | None => Returns 30.0%float
  end.

(** [main]: [argv] holds the program name and the arguments, [rng] is the
    generator as the clock seeded it.  The answer is the exit status and
    what was written. *)
Definition main (argv : list string) (rng : G) : outcome (Z * list main_event) :=
  if length argv <? 5
  then Returns (1%Z, [Usage (default "" (argv !! 0))])
  else
    let resource_file := default "" (argv !! 1) in
    let zone_file := default "" (argv !! 2) in
    let road_file := default "" (argv !! 3) in
    k ← parse_field (stoi parsers) (argv !! 4) 0%Z;
    min_distance_km ← arg_min_distance argv;
    let exclude_types := arg_exclude_types argv in
    max_slope ← arg_max_slope argv;
    let optimizer := mkOptimizer [] ∅ k min_distance_km exclude_types max_slope in
    '(optimizer1, out1) ← load_points parsers fs resource_file optimizer;
    '(optimizer2, out2) ← load_zone_features parsers fs zone_file optimizer1;
    '(optimizer3, out3) ← load_distances parsers fs road_file optimizer2;
    let '((medoids, cost), _, out) := optimize libm optimizer3 rng in
    let written := map Load (out1 ++ out2 ++ out3) ++ map Run out in
    match medoids with
    | _ :: _ =>
        report ← print_results libm optimizer3 medoids cost;
        Returns (0%Z, written ++ map Report report)
    | [] => Returns (1%Z, written ++ [NoSolution])
    end.

End Main.

(** ** Concrete instances *)

(** A generator that replays a list of raw draws, reduced into the requested
    range; past the end of the list it answers 0. *)
Definition script_draw (hi : nat) (g : list nat) : nat * list nat :=
  match g with
  | [] => (0, [])
  | x :: g' => (x mod S hi, g')
  end.

Definition script_draw_le (hi : nat) (g : list nat) : (script_draw hi g).1 <= hi :=
  match g with
  | [] => Nat.le_0_l hi
  | x :: _ =>
      proj1 (Nat.lt_succ_r (x mod S hi) hi)
            (Nat.mod_upper_bound x (S hi) (Nat.neq_succ_0 hi))
  end.

#[export] Instance ScriptRng : UniformRng (list nat) :=
  {| uniform_int := script_draw; uniform_int_le := script_draw_le |}.

(** A libm whose functions all answer NaN; used where the distance table is
    complete and the fallback is not reached. *)
Definition libm_nan : Libm :=
  mkLibm (fun _ => nan) (fun _ => nan) (fun _ _ => nan).

(** [load_distances]-style table from rows of whole metres. *)
Definition table_row (r : list (Z * Z)) : gmap string float :=
  list_to_map
    (map (fun '(to_id, d) => (to_string to_id, PrimFloat.of_uint63 (Uint63.of_Z d))) r).

Definition table_of (rows : list (Z * list (Z * Z))) : gmap string (gmap string float) :=
  list_to_map (map (fun '(from_id, r) => (to_string from_id, table_row r)) rows).

Definition site (i : Z) (weight : float) : Point := mkPoint i 0 0 weight "" 0 0.

(** Four sites A, B, C, D (identifiers 1..4) with weights 2, 1, 3, 1, a
    symmetric table, no exclusions and no separation requirement. *)
Definition four_sites (k : Z) : KMedoidsOptimizer :=
  mkOptimizer
    [site 1 2; site 2 1; site 3 3; site 4 1]
    (table_of [(1, [(1, 0); (2, 10); (3, 50); (4, 80)]);
               (2, [(1, 10); (2, 0); (3, 40); (4, 70)]);
               (3, [(1, 50); (2, 40); (3, 0); (4, 30)]);
               (4, [(1, 80); (2, 70); (3, 30); (4, 0)])]%Z)
    k 0 ∅ 30.

(** The four sites with site B on excluded land: B cannot host a centre but
    still has to be served. *)
Definition four_sites_lake : KMedoidsOptimizer :=
  mkOptimizer
    [site 1 2; mkPoint 2 0 0 1 "water" 0 0; site 3 3; site 4 1]
    (distance_matrix (four_sites 2)) 2 0 {["water"]} 30.

(** Two sites 2 km apart required, with a one-way shortcut: 1 m from site 1
    to site 2 but 5000 m back. *)
Definition one_way_sites : KMedoidsOptimizer :=
  mkOptimizer
    [site 1 1; site 2 1]
    (table_of [(1, [(1, 0); (2, 1)]); (2, [(1, 5000); (2, 0)])]%Z)
    2 2 ∅ 30.

(** Stand-ins for [std::stoi] and [std::stod] in the examples.  They accept
    only a non-empty string of decimal digits, up to the largest [int] for
    [stoi] and up to 2^53 (so that the value is exact) for [stod], and
    there they answer as the library does.  On everything else they throw,
    also where the library would not (signs, blanks, fractions, larger
    numbers). *)
Fixpoint digits_value (acc : Z) (s : string) : option Z :=
  match s with
  | EmptyString => Some acc
  | String c s' =>
      let n := Ascii.nat_of_ascii c in
      if (48 <=? n) && (n <=? 57)
      then digits_value (acc * 10 + Z.of_nat (n - 48)) s'
      else None
  end.

Definition whole_number (bound : Z) (s : string) : option Z :=
  match s with
  | EmptyString => None
  | String _ _ =>
      z ← digits_value 0 s;
      if (z <=? bound)%Z then Some z else None
  end.

Definition parsers_whole : Parsers :=
  mkParsers (whole_number (2 ^ 31 - 1))
            (fun s => z ← whole_number (2 ^ 53) s;
                      Some (PrimFloat.of_uint63 (Uint63.of_Z z))).

(** Three input files for the four sites: the points, zone records (two for
    site 2 and one for an identifier no point carries), and the road
    distances in kilometres. *)
Definition sample_files (filename : string) : option (list string) :=
  if bool_decide (filename = "points.csv")
  then Some ["id,latitude,longitude,resource_quantity";
             "1,0,0,2"; "2,0,0,1"; "3,0,0,3"; "4,0,0,1"]
  else if bool_decide (filename = "zones.csv")
  then Some ["id,slope,elevation,land_type";
             "2,5,100,water"; "2,7,120,forest"; "9,1,1,rock"]
  else if bool_decide (filename = "roads.csv")
  then Some [",1,2,3,4";
             "1,0,10,50,80"; "2,10,0,40,70"; "3,50,40,0,30"; "4,80,70,30,0"]
  else None.

(** An optimiser as [main] constructs it, before anything is loaded. *)
Definition fresh_optimizer (k : Z) : KMedoidsOptimizer :=
  mkOptimizer [] ∅ k 0 ∅ 30.

(** The four sites as [load_points] leaves them. *)
Definition loaded_sites : KMedoidsOptimizer :=
  mkOptimizer [site 1 2; site 2 1; site 3 3; site 4 1] ∅ 2 0 ∅ 30.

Definition sample_argv : list string :=
  ["centers"; "points.csv"; "zones.csv"; "roads.csv"; "2"; "0"; "water"].

(** A table from rows of distances given as they are stored. *)
Definition float_table (rows : list (Z * list (Z * float)))
    : gmap string (gmap string float) :=
  list_to_map
    (map (fun '(from_id, r) =>
            (to_string from_id,
             list_to_map (map (fun '(to_id, d) => (to_string to_id, d)) r)))
         rows).

(** Two sites with no road between them: the table holds an infinite
    distance in both directions, as [load_distances] stores for a cell
    [inf]. *)
Definition inf_sites : KMedoidsOptimizer :=
  mkOptimizer
    [site 1 0.5; site 2 1]
    (float_table [(1%Z, [(1%Z, 0%float); (2%Z, infinity)]);
                  (2%Z, [(1%Z, infinity); (2%Z, 0%float)])])
    1 0 ∅ 30.

(** The four sites with a minimum separation of [min_km] kilometres. *)
Definition four_sites_apart (k : Z) (min_km : float) : KMedoidsOptimizer :=
  mkOptimizer (points (four_sites k)) (distance_matrix (four_sites k))
              k min_km ∅ 30.

(** A libm that measures every central angle as one radian: [atan2]
    answers one half, [sin] nothing and [cos] one. *)
Definition libm_one_radian : Libm :=
  mkLibm (fun _ => 0%float) (fun _ => 1%float) (fun _ _ => 0.5%float).

(** Input files whose lines are not what the loaders expect: a points file
    with a short line, a blank line and a line with a field too many; and a
    road file with a fifth column and a fifth row that hold no numbers. *)
Definition ragged_files (filename : string) : option (list string) :=
  if bool_decide (filename = "points.csv")
  then Some ["id,latitude,longitude,resource_quantity";
             "7,1,2,3,4"; ""; "9,5"]
  else if bool_decide (filename = "roads.csv")
  then Some [",1,2,3,4,5";
             "1,0,10,50,80,n/a"; "2,10,0,40,70,n/a"; "3,50,40,0,30,n/a";
             "4,80,70,30,0,n/a"; "5,n/a,n/a,n/a,n/a,n/a"]
  else None.

(** ** IEEE-754 comparison facts *)

Module Double.

Ltac sf_cases :=
  repeat match goal with
  | s : bool |- _ => destruct s
  | |- context [Pos.compare_cont Eq ?a ?b] =>
      change (Pos.compare_cont Eq a b) with (Pos.compare a b)
  | H : context [Pos.compare_cont Eq ?a ?b] |- _ =>
      change (Pos.compare_cont Eq a b) with (Pos.compare a b) in H
  | |- context [Z.compare ?a ?b] => destruct (Z.compare_spec a b)
  | H : context [Z.compare ?a ?b] |- _ => destruct (Z.compare_spec a b)
  | |- context [Pos.compare ?a ?b] => destruct (Pos.compare_spec a b)
  | H : context [Pos.compare ?a ?b] |- _ => destruct (Pos.compare_spec a b)
  end; simpl in *; try congruence; try lia.

Ltac sf_destruct3 x y z :=
  destruct x as [?|?| |? ? ?], y as [?|?| |? ? ?], z as [?|?| |? ? ?].

Lemma SFcompare_lt_trans x y z :
  SFcompare x y = Some Lt -> SFcompare y z = Some Lt -> SFcompare x z = Some Lt.
Proof. sf_destruct3 x y z; simpl; intros Hxy Hyz; try congruence; sf_cases. Qed.


Lemma SFcompare_eq_lt_trans x y z :
  SFcompare x y = Some Eq -> SFcompare y z = Some Lt -> SFcompare x z = Some Lt.
Proof. sf_destruct3 x y z; simpl; intros Hxy Hyz; try congruence; sf_cases. Qed.


Lemma SFcompare_lt_irrefl x : SFcompare x x <> Some Lt.
Proof. destruct x as [?|?| |? ? ?]; simpl; sf_cases. Qed.

Lemma SFcompare_opp x y c :
  SFcompare x y = Some c -> SFcompare y x = Some (CompOpp c).
Proof.
  destruct x as [?|?| |? ? ?], y as [?|?| |? ? ?];
    simpl; intros Hxy; try congruence; sf_cases;
    injection Hxy as <-; simpl; sf_cases.
Qed.

Lemma SFcompare_nan_l x y : SFcompare x y = None -> x = S754_nan \/ y = S754_nan.
Proof.
  destruct x as [?|?| |? ? ?], y as [?|?| |? ? ?]; simpl; intros; auto; congruence.
Qed.

Lemma SFcompare_refl_nan x : SFcompare x x = None -> x = S754_nan.
Proof. intros H. destruct (SFcompare_nan_l _ _ H); assumption. Qed.

(** The same facts on primitive floats. *)

Lemma lt_cmp x y : flt x y <-> SFcompare (Prim2SF x) (Prim2SF y) = Some Lt.
Proof.
  unfold flt. rewrite FloatAxioms.ltb_spec. unfold SFltb.
  destruct (SFcompare _ _) as [[]|]; split; congruence.
Qed.

Lemma le_cmp x y :
  fle x y <-> SFcompare (Prim2SF x) (Prim2SF y) = Some Lt
             \/ SFcompare (Prim2SF x) (Prim2SF y) = Some Eq.
Proof.
  unfold fle. rewrite FloatAxioms.leb_spec. unfold SFleb.
  destruct (SFcompare _ _) as [[]|]; split; intros; auto; try congruence;
    destruct H; congruence.
Qed.

Lemma ordered_cmp x : ordered x <-> Prim2SF x <> S754_nan.
Proof.
  unfold ordered. rewrite FloatAxioms.eqb_spec. unfold SFeqb. split.
  - intros H E. rewrite E in H. simpl in H. congruence.
  - intros H. destruct (SFcompare (Prim2SF x) (Prim2SF x)) as [c|] eqn:E.
    + destruct c; auto.
      * destruct (SFcompare_lt_irrefl _ E).
      * apply SFcompare_opp in E as E'. simpl in E'.
        rewrite E in E'. congruence.
    + destruct (H (SFcompare_refl_nan _ E)).
Qed.

Lemma lt_irrefl x : PrimFloat.ltb x x = false.
Proof.
  destruct (PrimFloat.ltb x x) eqn:E; [|reflexivity].
  apply lt_cmp in E. destruct (SFcompare_lt_irrefl _ E).
Qed.

Lemma lt_trans x y z : flt x y -> flt y z -> flt x z.
Proof. rewrite !lt_cmp. apply SFcompare_lt_trans. Qed.

Lemma lt_le x y : flt x y -> fle x y.
Proof. rewrite lt_cmp, le_cmp. auto. Qed.

Lemma lt_asym x y : flt x y -> PrimFloat.ltb y x = false.
Proof.
  intros H. destruct (PrimFloat.ltb y x) eqn:E; [|reflexivity].
  pose proof (lt_trans _ _ _ H E) as Hxx. unfold flt in Hxx.
  rewrite lt_irrefl in Hxx. discriminate.
Qed.

Lemma le_refl x : ordered x -> fle x x.
Proof.
  rewrite ordered_cmp, le_cmp. intros H.
  destruct (SFcompare (Prim2SF x) (Prim2SF x)) as [c|] eqn:E.
  - destruct c; auto. apply SFcompare_opp in E as E'. simpl in E'.
    rewrite E in E'. congruence.
  - destruct (H (SFcompare_refl_nan _ E)).
Qed.


Lemma le_ordered_r x y : fle x y -> ordered y.
Proof.
  rewrite le_cmp, ordered_cmp. intros H E. rewrite E in H.
  destruct (Prim2SF x); simpl in H; destruct H; congruence.
Qed.


Lemma le_lt_trans x y z : fle x y -> flt y z -> flt x z.
Proof.
  rewrite !lt_cmp, le_cmp. intros [H|H] H'.
  - eapply SFcompare_lt_trans; eauto.
  - eapply SFcompare_eq_lt_trans; eauto.
Qed.


(** On ordered values, "not below" is "at least". *)
Lemma nlt_le x y :
  ordered x -> ordered y -> PrimFloat.ltb x y = false -> fle y x.
Proof.
  rewrite !ordered_cmp, le_cmp. intros Hx Hy Hlt.
  destruct (SFcompare (Prim2SF x) (Prim2SF y)) as [c|] eqn:E.
  - apply SFcompare_opp in E as E'. destruct c; simpl in E'; auto.
    assert (flt x y) as Hc by (apply lt_cmp; exact E).
    unfold flt in Hc. congruence.
  - destruct (SFcompare_nan_l _ _ E); contradiction.
Qed.




Lemma lt_nle x y : flt x y -> PrimFloat.leb y x = false.
Proof.
  intros H. destruct (PrimFloat.leb y x) eqn:E; [|reflexivity].
  pose proof (le_lt_trans _ _ _ E H) as Hyy. unfold flt in Hyy.
  rewrite lt_irrefl in Hyy. discriminate.
Qed.

End Double.


(** ** Properties of the optimiser *)

Section Properties.

Variable libm : Libm.
Variable self : KMedoidsOptimizer.
Context {G : Type} `{UniformRng G}.

Abbreviation try_swap := (try_swap libm self).
Abbreviation scan_candidates := (scan_candidates libm self).
Abbreviation scan_positions := (scan_positions libm self).
Abbreviation round := (round libm self).
Abbreviation search_loop := (search_loop libm self).
Abbreviation local_search := (local_search libm self).
Abbreviation search_start := (search_start libm self).
Abbreviation calculate_total_cost := (calculate_total_cost libm self).
Abbreviation get_distance := (get_distance libm self).
Abbreviation too_close := (too_close libm self).
Abbreviation pairwise_valid := (pairwise_valid libm self).
Abbreviation satisfies_min_distance := (satisfies_min_distance libm self).
Abbreviation initialize_medoids := (initialize_medoids libm self).
Abbreviation init_loop := (init_loop libm self).
Abbreviation valid_next_of := (valid_next_of libm self).
Abbreviation optimize := (optimize libm self).
Abbreviation filter_candidates := (filter_candidates self).
Abbreviation infeasible := (infeasible self).
Abbreviation init_ok := (init_ok libm self).

(** *** One trial and the scans built from it *)

(** A trial either leaves the state alone or commits the swapped set. *)
Lemma try_swap_cases i c st :
  try_swap i c st = st
  \/ ((c ∉ best_medoids st)
      /\ pairwise_valid (<[i := c]> (best_medoids st)) = true
      /\ flt (calculate_total_cost (<[i := c]> (best_medoids st))) (best_cost st)
      /\ try_swap i c st =
           mkSearch (<[i := c]> (best_medoids st))
                    (calculate_total_cost (<[i := c]> (best_medoids st)))
                    true (iterations st) (output st)).
Proof.
  unfold try_swap. case_bool_decide as Hin; [by left|].
  destruct (pairwise_valid _) eqn:Hv; simpl; [|by left].
  destruct (PrimFloat.ltb _ _) eqn:Hlt; [|by left].
  right. done.
Qed.

(** Anything a trial preserves is preserved by the scans. *)
Lemma scan_candidates_preserves (P : search_state -> Prop) vc i st :
  (forall c st', c ∈ vc -> P st' -> P (try_swap i c st')) ->
  P st -> P (scan_candidates vc i st).
Proof.
  unfold scan_candidates. revert st.
  induction vc as [|c vc IH]; intros st Hstep Hst; simpl; [done|].
  apply IH.
  - intros c' st' Hc'. apply Hstep. by right.
  - apply Hstep; [by left|done].
Qed.

Lemma scan_fold_preserves (P : search_state -> Prop) vc (ps : list nat) st :
  (forall i c st', i ∈ ps -> c ∈ vc -> P st' -> P (try_swap i c st')) ->
  P st ->
  P (fold_left (fun st i => scan_candidates vc i st) ps st).
Proof.
  revert st. induction ps as [|i ps IH]; intros st Hstep Hst; simpl; [done|].
  apply IH.
  - intros i' c st' Hi'. apply Hstep. by right.
  - apply scan_candidates_preserves; [|done].
    intros c st' Hc. apply Hstep; [by left|done].
Qed.

Lemma scan_positions_preserves (P : search_state -> Prop) vc st :
  (forall i c st', i < length (best_medoids st) -> c ∈ vc ->
                   P st' -> P (try_swap i c st')) ->
  P st -> P (scan_positions vc st).
Proof.
  intros Hstep Hst. unfold scan_positions.
  apply scan_fold_preserves; [|done].
  intros i c st' Hi. apply Hstep. apply elem_of_seq in Hi. lia.
Qed.

Lemma try_swap_length i c st :
  length (best_medoids (try_swap i c st)) = length (best_medoids st).
Proof.
  destruct (try_swap_cases i c st) as [->|(_ & _ & _ & ->)]; [done|].
  simpl. apply length_insert.
Qed.

Lemma try_swap_iterations i c st :
  iterations (try_swap i c st) = iterations st.
Proof. destruct (try_swap_cases i c st) as [->|(_ & _ & _ & ->)]; done. Qed.

Lemma try_swap_output i c st : output (try_swap i c st) = output st.
Proof. destruct (try_swap_cases i c st) as [->|(_ & _ & _ & ->)]; done. Qed.

Lemma scan_positions_length vc st :
  length (best_medoids (scan_positions vc st)) = length (best_medoids st).
Proof.
  apply (scan_positions_preserves
           (fun s => length (best_medoids s) = length (best_medoids st))); [|done].
  intros i c st' _ _ <-. apply try_swap_length.
Qed.

Lemma scan_positions_iterations vc st :
  iterations (scan_positions vc st) = iterations st.
Proof.
  apply (scan_positions_preserves (fun s => iterations s = iterations st)); [|done].
  intros i c st' _ _ <-. apply try_swap_iterations.
Qed.

Lemma scan_positions_output vc st : output (scan_positions vc st) = output st.
Proof.
  apply (scan_positions_preserves (fun s => output s = output st)); [|done].
  intros i c st' _ _ <-. apply try_swap_output.
Qed.

Lemma try_swap_outcome m0 c0 i c st :
  scan_outcome m0 c0 st -> scan_outcome m0 c0 (try_swap i c st).
Proof.
  intros Hst.
  destruct (try_swap_cases i c st) as [->|(_ & _ & Hlt & ->)]; [done|].
  right. simpl. split; [done|].
  destruct Hst as [(_ & _ & <-)|[_ Hlt0]]; [done|].
  eapply Double.lt_trans; eauto.
Qed.

Lemma round_fields vc st :
  let st1 := scan_positions vc
               (mkSearch (best_medoids st) (best_cost st) false
                         (S (iterations st)) (output st)) in
  best_medoids (round vc st) = best_medoids st1
  /\ best_cost (round vc st) = best_cost st1
  /\ improved (round vc st) = improved st1
  /\ iterations (round vc st) = S (iterations st).
Proof.
  intros st1. unfold round. fold st1.
  assert (iterations st1 = S (iterations st)) as Hit
    by (unfold st1; by rewrite scan_positions_iterations).
  destruct (improved st1) eqn:E; simpl; auto.
Qed.

Lemma round_outcome vc st :
  scan_outcome (best_medoids st) (best_cost st) (round vc st).
Proof.
  destruct (round_fields vc st) as (Hm & Hc & Hi & _).
  unfold scan_outcome. rewrite Hm, Hc, Hi.
  apply (scan_positions_preserves (scan_outcome (best_medoids st) (best_cost st))).
  - intros i c st' _ _. apply try_swap_outcome.
  - left. done.
Qed.

(** C3: a commit strictly lowers the cost; a round that records an
    improvement ends strictly below the cost it started from, a round that
    records none ends with the same set and the same cost; so the cost
    after a round is below or equal to the cost before it, strictly below
    exactly when the round improved, and never above. *)
Theorem round_cost_monotone vc st :
  (forall i c, try_swap i c st = st
               \/ flt (best_cost (try_swap i c st)) (best_cost st))
  /\ (improved (round vc st) = true <->
      flt (best_cost (round vc st)) (best_cost st))
  /\ (improved (round vc st) = false ->
      best_cost (round vc st) = best_cost st
      /\ best_medoids (round vc st) = best_medoids st)
  /\ (flt (best_cost (round vc st)) (best_cost st)
      \/ best_cost (round vc st) = best_cost st)
  /\ (ordered (best_cost st) -> fle (best_cost (round vc st)) (best_cost st))
  /\ PrimFloat.ltb (best_cost st) (best_cost (round vc st)) = false.
Proof.
  pose proof (round_outcome vc st) as Hout.
  split; [|split; [|split; [|split; [|split]]]].
  - intros i c.
    destruct (try_swap_cases i c st) as [->|(_ & _ & Hlt & ->)]; auto.
  - destruct Hout as [(Hi & _ & Hc)|[Hi Hlt]]; rewrite Hi.
    + split; [done|]. rewrite Hc. unfold flt.
      rewrite Double.lt_irrefl. done.
    + done.
  - intros Hi. destruct Hout as [(_ & Hm & Hc)|[Hi' _]]; [done|congruence].
  - destruct Hout as [(_ & _ & Hc)|[_ Hlt]]; auto.
  - intros Hord. destruct Hout as [(_ & _ & Hc)|[_ Hlt]].
    + rewrite Hc. by apply Double.le_refl.
    + by apply Double.lt_le.
  - destruct Hout as [(_ & _ & Hc)|[_ Hlt]].
    + rewrite Hc. apply Double.lt_irrefl.
    + by apply Double.lt_asym.
Qed.

(** *** The round loop *)

Lemma round_iterations vc st : iterations (round vc st) = S (iterations st).
Proof. by destruct (round_fields vc st) as (_ & _ & _ & ->). Qed.

Lemma iter_round_iterations vc n st :
  iterations (Nat.iter n (round vc) st) = n + iterations st.
Proof.
  induction n as [|n IH]; simpl; [done|].
  by rewrite round_iterations, IH.
Qed.

(** With enough fuel the loop runs the round some number [n] of times, the
    test holding before each of them and failing after the last. *)
Lemma search_loop_unfold vc fuel st :
  max_iterations <= iterations st + fuel ->
  exists n,
    n <= fuel
    /\ search_loop fuel vc st = Nat.iter n (round vc) st
    /\ (forall j, j < n -> keep_searching (Nat.iter j (round vc) st) = true)
    /\ keep_searching (Nat.iter n (round vc) st) = false.
Proof.
  revert st. induction fuel as [|fuel IH]; intros st Hfuel.
  - exists 0. simpl. split; [lia|]. split; [done|]. split; [intros; lia|].
    unfold keep_searching. apply andb_false_iff. right.
    apply Nat.ltb_ge. lia.
  - simpl. destruct (keep_searching st) eqn:Hk.
    + destruct (IH (round vc st)) as (n & Hn & Heq & Hbefore & Hafter).
      { rewrite round_iterations. lia. }
      exists (S n). rewrite !Nat.iter_succ_r. split; [lia|]. split; [done|].
      split; [|done].
      intros [|j] Hj; [done|]. rewrite Nat.iter_succ_r. apply Hbefore. lia.
    + exists 0. simpl. split; [lia|]. split; [done|]. split; [intros; lia|done].
Qed.

(** Once the test fails, more fuel changes nothing. *)
Lemma search_loop_stable vc fuel extra st :
  keep_searching (search_loop fuel vc st) = false ->
  search_loop (fuel + extra) vc st = search_loop fuel vc st.
Proof.
  revert st. induction fuel as [|fuel IH]; intros st Hstop; simpl in *.
  - destruct extra; simpl; [done|]. by rewrite Hstop.
  - destruct (keep_searching st); [|done].
    by apply IH.
Qed.

(** The round loop entered from [search_start] runs [n] rounds, 1 <= n <= 50:
    every round before the last recorded an improvement, the last one either
    recorded none or was round 50, and more fuel gives the same state. *)
Lemma local_search_rounds vc medoids out :
  let st0 := search_start medoids out in
  let st := local_search vc st0 in
  exists n,
    1 <= n <= max_iterations
    /\ st = Nat.iter n (round vc) st0
    /\ iterations st = n
    /\ (forall j, 1 <= j < n -> improved (Nat.iter j (round vc) st0) = true)
    /\ (improved st = false \/ n = max_iterations)
    /\ (forall fuel, max_iterations <= fuel -> search_loop fuel vc st0 = st).
Proof.
  intros st0 st.
  destruct (search_loop_unfold vc max_iterations st0) as (n & Hn & Heq & Hbefore & Hafter);
    [lia|].
  assert (iterations (Nat.iter n (round vc) st0) = n) as Hit.
  { rewrite iter_round_iterations. simpl. lia. }
  exists n. unfold st, local_search. rewrite Heq.
  split; [|split; [done|split; [done|split; [|split]]]].
  - split; [|done]. destruct n; [|lia]. simpl in Hafter. discriminate.
  - intros j Hj. specialize (Hbefore j ltac:(lia)).
    unfold keep_searching in Hbefore. by apply andb_true_iff in Hbefore as [? _].
  - unfold keep_searching in Hafter. apply andb_false_iff in Hafter as [?|Hlt]; [by left|].
    right. rewrite Hit in Hlt. apply Nat.ltb_ge in Hlt. lia.
  - intros fuel Hfuel. replace fuel with (max_iterations + (fuel - max_iterations)) by lia.
    rewrite search_loop_stable; rewrite Heq; done.
Qed.

(** *** [optimize] as a whole *)

Lemma optimize_infeasible rng :
  infeasible = true ->
  optimize rng =
    (([], DBL_MAX), rng,
     [EvCandidates (length filter_candidates.1);
      EvNotEnough (length filter_candidates.1) (k self)]).
Proof.
  unfold optimize. simpl. intros ->. done.
Qed.

Lemma optimize_feasible rng :
  infeasible = false ->
  optimize rng =
    let vc := filter_candidates.1 in
    let st := local_search vc
                (search_start (initialize_medoids vc rng).1.1
                   ([EvCandidates (length vc)] ++ (initialize_medoids vc rng).2)) in
    ((best_medoids st, best_cost st), (initialize_medoids vc rng).1.2,
     output st ++ [EvConverged (iterations st)]).
Proof.
  unfold optimize. simpl. intros ->.
  by destruct (initialize_medoids _ rng) as [[m g] o].
Qed.

(** C2: when fewer than [k] candidates pass the filter, [optimize] returns
    the empty medoid set with cost [DBL_MAX]; the generator is untouched and
    the output holds only the candidate count and the error line, so neither
    the initialiser nor the round loop has run. *)
Theorem optimize_insufficient_candidates rng :
  (k self < 2 ^ 31)%Z ->
  (Z.of_nat (length filter_candidates.1) < k self)%Z ->
  optimize rng =
    (([], DBL_MAX), rng,
     [EvCandidates (length filter_candidates.1);
      EvNotEnough (length filter_candidates.1) (k self)]).
Proof.
  intros Hint Hlt. apply optimize_infeasible.
  change (infeasible) with (Z.of_nat (length filter_candidates.1) <? size_t_of_int (k self))%Z.
  unfold size_t_of_int.
  apply Z.ltb_lt. rewrite Z.mod_small; lia.
Qed.

(** C6: when [optimize] reaches the round loop, the loop stops after some
    number [n] of rounds with 1 <= n <= 50.  Every round before the last
    recorded an improvement; the last round either recorded none or was
    round 50; any fuel of at least 50 yields the same final state; the pair
    returned is that of the final state, and the last line written reports
    [n]. *)
Theorem optimize_search_terminates rng :
  infeasible = false ->
  let vc := filter_candidates.1 in
  let st0 := search_start (initialize_medoids vc rng).1.1
               ([EvCandidates (length vc)] ++ (initialize_medoids vc rng).2) in
  exists n,
    1 <= n <= max_iterations
    /\ (forall j, 1 <= j < n -> improved (Nat.iter j (round vc) st0) = true)
    /\ (improved (Nat.iter n (round vc) st0) = false \/ n = max_iterations)
    /\ (forall fuel, max_iterations <= fuel ->
        search_loop fuel vc st0 = Nat.iter n (round vc) st0)
    /\ (optimize rng).1.1 =
         (best_medoids (Nat.iter n (round vc) st0),
          best_cost (Nat.iter n (round vc) st0))
    /\ (optimize rng).2 =
         output (Nat.iter n (round vc) st0) ++ [EvConverged n].
Proof.
  intros Hfeas vc st0.
  destruct (local_search_rounds vc (initialize_medoids vc rng).1.1
              ([EvCandidates (length vc)] ++ (initialize_medoids vc rng).2))
    as (n & Hn & Heq & Hit & Hbefore & Hafter & Hfuel).
  fold st0 in Heq, Hit, Hbefore, Hafter, Hfuel.
  exists n. rewrite optimize_feasible by done. cbv zeta. fold vc. fold st0.
  cbn [fst snd]. rewrite Hit. rewrite Heq in Hafter, Hfuel |- *. done.
Qed.

(** *** The initialiser *)

Lemma too_close_distance a b :
  too_close a b = PrimFloat.ltb (distance_between libm self a b) (min_distance_m self).
Proof. reflexivity. Qed.

Lemma satisfies_min_distance_spec medoids c :
  satisfies_min_distance medoids c = true <->
  forall m, m ∈ medoids -> too_close c m = false.
Proof.
  induction medoids as [|m0 medoids IH]; simpl.
  - split; [|done]. intros _ m Hm. by apply elem_of_nil in Hm.
  - destruct (too_close c m0) eqn:E.
    + split; [done|]. intros Hall. specialize (Hall m0 ltac:(left)). congruence.
    + rewrite IH. split.
      * intros Hall m Hm. apply elem_of_cons in Hm as [->|Hm]; auto.
      * intros Hall m Hm. apply Hall. by right.
Qed.

Lemma valid_next_of_spec vc medoids c :
  c ∈ valid_next_of vc medoids <->
  (c ∈ vc) /\ (c ∉ medoids) /\ forall m, m ∈ medoids -> too_close c m = false.
Proof.
  unfold valid_next_of. rewrite list_elem_of_In, filter_In, <- list_elem_of_In.
  rewrite andb_true_iff, negb_true_iff, bool_decide_eq_false.
  rewrite satisfies_min_distance_spec. tauto.
Qed.

(** A draw from a non-empty list lands on one of its members. *)
Lemma drawn_elem_of (l : list nat) (rng : G) :
  l <> [] -> l !!! (uniform_int (length l - 1) rng).1 ∈ l.
Proof.
  intros Hne. apply list_elem_of_lookup_total_2.
  pose proof (uniform_int_le (length l - 1) rng).
  destruct l; [done|]. simpl in *. lia.
Qed.

Lemma separated_back_snoc medoids c :
  separated_back libm self medoids ->
  (forall m, m ∈ medoids -> too_close c m = false) ->
  separated_back libm self (medoids ++ [c]).
Proof.
  intros Hsep Hc j l a b Hjl Ha Hb.
  apply lookup_snoc_Some in Hb as [[Hl Hb]|[Hl <-]].
  - apply lookup_snoc_Some in Ha as [[_ Ha]|[Hj _]]; [|lia]. eauto.
  - apply lookup_snoc_Some in Ha as [[_ Ha]|[Hj _]]; [|lia].
    rewrite <- too_close_distance. apply Hc. eapply list_elem_of_lookup_2; eauto.
Qed.

Lemma init_loop_ok n vc medoids rng :
  init_ok vc medoids -> init_ok vc (init_loop n vc medoids rng).1.1.
Proof.
  revert medoids rng. induction n as [|n IH]; intros medoids rng Hok; simpl; [done|].
  destruct vc as [|v vc'] eqn:Evc; [done|]. rewrite <- Evc in *.
  destruct (valid_next_of vc medoids) as [|w ws] eqn:Enext; [done|].
  rewrite <- Enext.
  destruct (uniform_int _ rng) as [j rng'] eqn:Edraw.
  apply IH. destruct Hok as (Hsep & Hsub & Hnd).
  assert (valid_next_of vc medoids !!! j ∈ valid_next_of vc medoids) as Hin.
  { replace j with (uniform_int (length (valid_next_of vc medoids) - 1) rng).1
      by (by rewrite Edraw).
    apply drawn_elem_of. by rewrite Enext. }
  apply valid_next_of_spec in Hin as (Hvc & Hfresh & Hfar).
  split; [|split].
  - by apply separated_back_snoc.
  - intros x Hx. apply elem_of_app in Hx as [Hx|Hx]; [by apply Hsub|].
    apply list_elem_of_singleton in Hx as ->. done.
  - apply NoDup_app. split; [done|]. split; [|apply NoDup_singleton].
    intros x Hx Hx'. apply list_elem_of_singleton in Hx' as ->. done.
Qed.

Lemma init_loop_prefix n vc medoids rng :
  exists extra, (init_loop n vc medoids rng).1.1 = medoids ++ extra
                /\ length extra <= n.
Proof.
  revert medoids rng. induction n as [|n IH]; intros medoids rng; simpl.
  - exists []. by rewrite app_nil_r.
  - destruct vc as [|v vc'] eqn:Evc; [exists []; rewrite app_nil_r; simpl; split; [done|lia]|].
    rewrite <- Evc in *.
    destruct (valid_next_of vc medoids) as [|w ws] eqn:Enext;
      [exists []; rewrite app_nil_r; simpl; split; [done|lia]|].
    rewrite <- Enext.
    destruct (uniform_int _ rng) as [j rng'].
    destruct (IH (medoids ++ [valid_next_of vc medoids !!! j]) rng')
      as (extra & -> & Hlen).
    exists (valid_next_of vc medoids !!! j :: extra).
    rewrite <- app_assoc. simpl. split; [done|lia].
Qed.

(** The medoid list with which [initialize_medoids] enters its loop. *)
Lemma initialize_medoids_unfold vc rng :
  initialize_medoids vc rng =
    match vc with
    | [] => init_loop (Z.to_nat (k self - 1)) vc [] rng
    | _ :: _ =>
        init_loop (Z.to_nat (k self - 1)) vc
          [vc !!! (uniform_int (length vc - 1) rng).1]
          (uniform_int (length vc - 1) rng).2
    end.
Proof.
  unfold initialize_medoids. destruct vc as [|v vc']; [done|].
  by destruct (uniform_int _ rng).
Qed.

Lemma initialize_medoids_ok vc rng :
  init_ok vc (initialize_medoids vc rng).1.1.
Proof.
  rewrite initialize_medoids_unfold. destruct vc as [|v vc'] eqn:Evc.
  - apply init_loop_ok. split; [|split]; [|done|apply NoDup_nil_2].
    intros j l a b _ Ha. by rewrite lookup_nil in Ha.
  - rewrite <- Evc. apply init_loop_ok. split; [|split].
    + intros j l a b Hjl Ha Hb. apply list_lookup_singleton_Some in Ha as [-> _].
      apply list_lookup_singleton_Some in Hb as [-> _]. lia.
    + intros x Hx. apply list_elem_of_singleton in Hx as ->.
      apply drawn_elem_of. by rewrite Evc.
    + apply NoDup_singleton.
Qed.

(** *** Medoid lists through the round loop *)

Section MedoidInvariant.

Variable vc : list nat.
Variable P : list nat -> Prop.
Hypothesis P_swap :
  forall i c m, P m -> i < length m -> c ∈ vc -> c ∉ m ->
    pairwise_valid (<[i := c]> m) = true -> P (<[i := c]> m).

Lemma scan_positions_medoids st :
  P (best_medoids st) -> P (best_medoids (scan_positions vc st)).
Proof.
  intros HP.
  cut (P (best_medoids (scan_positions vc st))
       /\ length (best_medoids (scan_positions vc st)) = length (best_medoids st));
    [by intros [? _]|].
  apply (scan_positions_preserves
           (fun s => P (best_medoids s)
                     /\ length (best_medoids s) = length (best_medoids st)));
    [|done].
  intros i c st' Hi Hc [HP' Hlen].
  destruct (try_swap_cases i c st') as [->|(Hfresh & Hvalid & _ & ->)]; [done|].
  simpl. rewrite length_insert. split; [|done].
  apply P_swap; auto. by rewrite Hlen.
Qed.

Lemma round_medoids st :
  P (best_medoids st) -> P (best_medoids (round vc st)).
Proof.
  intros HP. destruct (round_fields vc st) as (-> & _).
  by apply scan_positions_medoids.
Qed.

Lemma search_loop_medoids fuel st :
  P (best_medoids st) -> P (best_medoids (search_loop fuel vc st)).
Proof.
  revert st. induction fuel as [|fuel IH]; intros st HP; simpl; [done|].
  destruct (keep_searching st); [|done]. by apply IH, round_medoids.
Qed.

End MedoidInvariant.

Lemma elem_of_insert_inv (m : list nat) i c x :
  x ∈ <[i := c]> m -> x = c \/ x ∈ m.
Proof.
  intros Hx. apply list_elem_of_lookup in Hx as [j Hj].
  apply list_lookup_insert_Some in Hj as [(_ & -> & _)|[_ Hj]]; [by left|].
  right. eapply list_elem_of_lookup_2; eauto.
Qed.

Lemma NoDup_insert_fresh (m : list nat) i c :
  NoDup m -> c ∉ m -> NoDup (<[i := c]> m).
Proof.
  rewrite !NoDup_alt. intros Hnd Hfresh j1 j2 x H1 H2.
  apply list_lookup_insert_Some in H1 as [(-> & -> & _)|[Hne1 H1]];
    apply list_lookup_insert_Some in H2 as [(-> & E & _)|[Hne2 H2]]; auto.
  - destruct Hfresh. eapply list_elem_of_lookup_2; eauto.
  - subst x. destruct Hfresh. eapply list_elem_of_lookup_2; eauto.
  - eauto.
Qed.

Lemma separated_fwd_cons m rest :
  separated_fwd libm self (m :: rest) <->
  (forall b, b ∈ rest -> too_close m b = false) /\ separated_fwd libm self rest.
Proof.
  split.
  - intros Hsep. split.
    + intros b Hb. apply list_elem_of_lookup in Hb as [l Hl].
      apply (Hsep 0 (S l) m b); [lia|done|done].
    + intros j l a b Hjl Ha Hb. apply (Hsep (S j) (S l) a b); [lia|done|done].
  - intros [Hhead Hrest] j l a b Hjl Ha Hb.
    destruct l as [|l]; [lia|]. simpl in Hb.
    destruct j as [|j]; simpl in Ha.
    + injection Ha as <-. rewrite <- too_close_distance. apply Hhead.
      eapply list_elem_of_lookup_2; eauto.
    + apply (Hrest j l a b); [lia|done|done].
Qed.

(** The nested loops over [j] and [l = j + 1 ..] accept a list exactly when
    every earlier member is not too close to every later one. *)
Lemma pairwise_valid_spec medoids :
  pairwise_valid medoids = true <-> separated_fwd libm self medoids.
Proof.
  induction medoids as [|m rest IH]; simpl.
  - split; [|done]. intros _ j l a b _ Ha. by rewrite lookup_nil in Ha.
  - rewrite separated_fwd_cons, andb_true_iff, IH, forallb_forall.
    split; intros [Hhead Hrest]; (split; [|done]).
    + intros b Hb. apply list_elem_of_In in Hb. apply Hhead in Hb.
      by apply negb_true_iff in Hb.
    + intros b Hb. apply negb_true_iff, Hhead. by apply list_elem_of_In.
Qed.

Lemma local_search_members vc st :
  best_medoids st ⊆ vc /\ NoDup (best_medoids st) ->
  best_medoids (local_search vc st) ⊆ vc /\ NoDup (best_medoids (local_search vc st)).
Proof.
  apply (search_loop_medoids vc (fun m => m ⊆ vc /\ NoDup m)).
  intros i c m [Hsub Hnd] _ Hc Hfresh _. split.
  - intros x Hx. apply elem_of_insert_inv in Hx as [->|Hx]; auto.
  - by apply NoDup_insert_fresh.
Qed.

Lemma local_search_length vc st :
  length (best_medoids (local_search vc st)) = length (best_medoids st).
Proof.
  apply (search_loop_medoids vc (fun m => length m = length (best_medoids st)));
    [|done].
  intros i c m <- _ _ _ _. apply length_insert.
Qed.

(** The set that leaves the round loop is the one that entered it, or one
    that passed the check of the loop. *)
Lemma local_search_separated vc st :
  best_medoids (local_search vc st) = best_medoids st
  \/ separated_fwd libm self (best_medoids (local_search vc st)).
Proof.
  apply (search_loop_medoids vc
           (fun m => m = best_medoids st \/ separated_fwd libm self m)); [|by left].
  intros i c m _ _ _ _ Hvalid. right. by apply pairwise_valid_spec.
Qed.

(** With a symmetric oracle the direction of the check does not matter. *)
Lemma separated_of_back vc medoids :
  symmetric_on libm self vc -> medoids ⊆ vc ->
  separated_back libm self medoids -> separated libm self medoids.
Proof.
  intros Hsym Hsub Hsep j l a b Hjl Ha Hb.
  assert (a ∈ vc) by (eapply Hsub, list_elem_of_lookup_2; eauto).
  assert (b ∈ vc) by (eapply Hsub, list_elem_of_lookup_2; eauto).
  destruct (Nat.lt_ge_cases j l) as [Hlt|Hge].
  - rewrite Hsym by done. eapply Hsep; eauto.
  - apply (Hsep l j b a); [lia|done|done].
Qed.

Lemma separated_of_fwd vc medoids :
  symmetric_on libm self vc -> medoids ⊆ vc ->
  separated_fwd libm self medoids -> separated libm self medoids.
Proof.
  intros Hsym Hsub Hsep j l a b Hjl Ha Hb.
  assert (a ∈ vc) by (eapply Hsub, list_elem_of_lookup_2; eauto).
  assert (b ∈ vc) by (eapply Hsub, list_elem_of_lookup_2; eauto).
  destruct (Nat.lt_ge_cases j l) as [Hlt|Hge].
  - eapply Hsep; eauto.
  - rewrite Hsym by done. apply (Hsep l j b a); [lia|done|done].
Qed.

Lemma at_least_of_separated vc medoids :
  ordered_on libm self vc -> ordered (min_distance_m self) -> medoids ⊆ vc ->
  separated libm self medoids -> at_least_min_apart libm self medoids.
Proof.
  intros Hord Hmin Hsub Hsep j l a b Hjl Ha Hb.
  apply Double.nlt_le; [| |eauto]; [|done].
  apply Hord; eapply Hsub, list_elem_of_lookup_2; eauto.
Qed.

(** The medoid set [optimize] returns, in terms of the initialiser's. *)
Lemma optimize_medoids rng :
  (optimize rng).1.1.1 =
    if infeasible then []
    else best_medoids
           (local_search filter_candidates.1
              (search_start (initialize_medoids filter_candidates.1 rng).1.1
                 ([EvCandidates (length filter_candidates.1)]
                  ++ (initialize_medoids filter_candidates.1 rng).2))).
Proof.
  destruct infeasible eqn:E.
  - by rewrite optimize_infeasible.
  - by rewrite optimize_feasible.
Qed.

(** X19: when the oracle answers the same in both directions on the
    candidates, no ordered pair of distinct members of the initialiser's set
    or of the returned set is strictly below the separation threshold; when
    moreover no distance between candidates and not the threshold is NaN,
    every such pair is at least the threshold apart. *)
Theorem optimize_separated_when_symmetric rng :
  let vc := filter_candidates.1 in
  let initial := (initialize_medoids vc rng).1.1 in
  let final := (optimize rng).1.1.1 in
  symmetric_on libm self vc ->
  (separated libm self initial /\ separated libm self final)
  /\ (ordered_on libm self vc -> ordered (min_distance_m self) ->
      at_least_min_apart libm self initial
      /\ at_least_min_apart libm self final).
Proof.
  intros vc initial final Hsym.
  destruct (initialize_medoids_ok vc rng) as (Hback & Hsub & Hnd).
  fold initial in Hback, Hsub, Hnd.
  assert (final ⊆ vc) as Hsubf.
  { unfold final. rewrite optimize_medoids. destruct infeasible.
    - intros x Hx. by apply elem_of_nil in Hx.
    - by apply local_search_members. }
  assert (separated libm self initial) as Hinit by (by eapply separated_of_back).
  assert (separated libm self final) as Hfinal.
  { unfold final. rewrite optimize_medoids. destruct infeasible eqn:E.
    - intros j l a b _ Ha. by rewrite lookup_nil in Ha.
    - unfold final in Hsubf. rewrite optimize_medoids, E in Hsubf.
      destruct (local_search_separated vc
                  (search_start initial
                     ([EvCandidates (length vc)] ++ (initialize_medoids vc rng).2)))
        as [Heq|Hfwd].
      + fold vc. fold initial. rewrite Heq. done.
      + by eapply separated_of_fwd. }
  split; [done|]. intros Hord Hmin.
  split; eapply at_least_of_separated; eauto.
Qed.

(** C10: with a non-empty candidate set the initialiser's result starts
    with a drawn candidate whatever [k] is; with [k = 0] the early return is
    not taken and [optimize] returns exactly one medoid, more than [k]. *)
Theorem first_medoid_regardless_of_k rng :
  let vc := filter_candidates.1 in
  vc <> [] ->
  (exists first rest,
      first ∈ vc /\ (initialize_medoids vc rng).1.1 = first :: rest)
  /\ (k self = 0%Z ->
      infeasible = false
      /\ length (optimize rng).1.1.1 = 1
      /\ (k self < Z.of_nat (length (optimize rng).1.1.1))%Z).
Proof.
  intros vc Hne. split.
  - rewrite initialize_medoids_unfold. destruct vc as [|v vc'] eqn:Evc; [done|].
    rewrite <- Evc.
    destruct (init_loop_prefix (Z.to_nat (k self - 1)) vc
                [vc !!! (uniform_int (length vc - 1) rng).1]
                (uniform_int (length vc - 1) rng).2) as (extra & -> & _).
    eexists _, extra. split; [|done]. apply drawn_elem_of. by rewrite Evc.
  - intros Hk.
    assert (infeasible = false) as Hfeas.
    { change infeasible
        with (Z.of_nat (length filter_candidates.1) <? size_t_of_int (k self))%Z.
      rewrite Hk. apply Z.ltb_ge. unfold size_t_of_int.
      rewrite Z.mod_0_l by lia. lia. }
    split; [done|]. rewrite optimize_medoids, Hfeas, local_search_length.
    fold vc. simpl. rewrite initialize_medoids_unfold, Hk.
    destruct vc as [|v vc'] eqn:Evc; [done|]. simpl. lia.
Qed.

(** *** Traversal order of a round *)

Lemma fold_trials_row vc i st :
  fold_left (fun s '(i, c) => try_swap i c s) (map (pair i) vc) st
  = scan_candidates vc i st.
Proof.
  unfold scan_candidates. revert st.
  induction vc as [|c vc IH]; intros st; simpl; [done|]. apply IH.
Qed.

Lemma fold_trials_rows vc ps st :
  fold_left (fun s '(i, c) => try_swap i c s)
            (flat_map (fun i => map (pair i) vc) ps) st
  = fold_left (fun s i => scan_candidates vc i s) ps st.
Proof.
  revert st. induction ps as [|i ps IH]; intros st; simpl; [done|].
  by rewrite fold_left_app, fold_trials_row, IH.
Qed.

(** C5: a round makes its trials in one fixed order, positions first and
    candidates within a position, each trial starting from the state the
    previous one left.  A trial whose candidate is already a medoid, whose
    set fails the separation check, or whose recomputed cost is not strictly
    below the current best cost leaves the state as it is; any other trial
    replaces the set and the cost at once and records the improvement. *)
Theorem round_first_improvement vc st :
  let st0 := mkSearch (best_medoids st) (best_cost st) false
                      (S (iterations st)) (output st) in
  let st1 := fold_left (fun s '(i, c) => try_swap i c s)
                       (trial_order (length (best_medoids st)) vc) st0 in
  (best_medoids (round vc st), best_cost (round vc st), improved (round vc st))
    = (best_medoids st1, best_cost st1, improved st1)
  /\ (forall ts1 ts2 s,
        fold_left (fun s '(i, c) => try_swap i c s) (ts1 ++ ts2) s
        = fold_left (fun s '(i, c) => try_swap i c s) ts2
            (fold_left (fun s '(i, c) => try_swap i c s) ts1 s))
  /\ forall i c s,
       let trial := <[i := c]> (best_medoids s) in
       ((c ∈ best_medoids s
         \/ ~ separated_fwd libm self trial
         \/ PrimFloat.ltb (calculate_total_cost trial) (best_cost s) = false) ->
        try_swap i c s = s)
       /\ ((c ∉ best_medoids s) ->
           separated_fwd libm self trial ->
           flt (calculate_total_cost trial) (best_cost s) ->
           try_swap i c s =
             mkSearch trial (calculate_total_cost trial) true
                      (iterations s) (output s)).
Proof.
  intros st0 st1. split; [|split].
  - destruct (round_fields vc st) as (-> & -> & -> & _). fold st0.
    unfold st1, trial_order. rewrite fold_trials_rows. done.
  - intros ts1 ts2 s. apply fold_left_app.
  - intros i c s trial. unfold try_swap. fold trial. split.
    + intros Hskip. case_bool_decide as Hin; [done|].
      destruct (pairwise_valid trial) eqn:Hv; simpl; [|done].
      destruct (PrimFloat.ltb _ _) eqn:Hlt; [|done].
      apply pairwise_valid_spec in Hv.
      destruct Hskip as [?|[?|?]]; [done|done|congruence].
    + intros Hfresh Hsep Hlt. rewrite bool_decide_eq_false_2 by done.
      apply pairwise_valid_spec in Hsep. rewrite Hsep. simpl.
      unfold flt in Hlt. by rewrite Hlt.
Qed.

(** *** Cost of a medoid set *)











(** *** Assignment *)

(** The scan from position [j0] with running minimum [md]: either nothing
    beats [md] and the incoming answer stands, or the answer is a position
    whose distance is below [md], which nothing beats and which no earlier
    position ties. *)
Lemma assign_scan_spec p j0 ms md best :
  (assign_scan libm self p j0 ms md best = best
   /\ forall m, m ∈ ms -> PrimFloat.ltb (distance_from libm self p m) md = false)
  \/ exists j m,
       assign_scan libm self p j0 ms md best = Z.of_nat (j0 + j)
       /\ ms !! j = Some m
       /\ flt (distance_from libm self p m) md
       /\ (forall j' m', ms !! j' = Some m' ->
             PrimFloat.ltb (distance_from libm self p m')
                           (distance_from libm self p m) = false)
       /\ (forall j' m', j' < j -> ms !! j' = Some m' ->
             PrimFloat.leb (distance_from libm self p m')
                           (distance_from libm self p m) = false).
Proof.
  revert j0 md best. induction ms as [|m0 rest IH]; intros j0 md best; simpl.
  - left. split; [done|]. intros m Hm. by apply elem_of_nil in Hm.
  - fold (distance_from libm self p m0).
    destruct (PrimFloat.ltb (distance_from libm self p m0) md) eqn:E0.
    + right.
      destruct (IH (S j0) (distance_from libm self p m0) (Z.of_nat j0))
        as [[-> Hnone]|(j & m & -> & Hm & Hlt & Hbest & Hfirst)].
      * exists 0, m0. rewrite Nat.add_0_r. split; [done|]. split; [done|].
        split; [done|]. split; [|intros; lia].
        intros [|j'] m' Hm'; simpl in Hm'.
        -- injection Hm' as <-. apply Double.lt_irrefl.
        -- apply Hnone. eapply list_elem_of_lookup_2; eauto.
      * exists (S j), m. split; [f_equal; lia|]. split; [done|].
        split; [eapply Double.lt_trans; eauto|]. split.
        -- intros [|j'] m' Hm'; simpl in Hm'; [|eauto].
           injection Hm' as <-. by apply Double.lt_asym.
        -- intros [|j'] m' Hj' Hm'; simpl in Hm'.
           ++ injection Hm' as <-. by apply Double.lt_nle.
           ++ apply (Hfirst j'); [lia|done].
    + destruct (IH (S j0) md best)
        as [[-> Hnone]|(j & m & -> & Hm & Hlt & Hbest & Hfirst)].
      * left. split; [done|]. intros m Hm.
        apply elem_of_cons in Hm as [->|Hm]; auto.
      * right. exists (S j), m. split; [f_equal; lia|]. split; [done|].
        split; [done|]. split.
        -- intros [|j'] m' Hm'; simpl in Hm'; [|eauto].
           injection Hm' as <-.
           destruct (PrimFloat.ltb (distance_from libm self p m0)
                                   (distance_from libm self p m)) eqn:E; [|done].
           pose proof (Double.lt_trans _ _ _ E Hlt) as Hc.
           unfold flt in Hc. congruence.
        -- intros [|j'] m' Hj' Hm'; simpl in Hm'.
           ++ injection Hm' as <-.
              destruct (PrimFloat.leb (distance_from libm self p m0)
                                      (distance_from libm self p m)) eqn:E; [|done].
              pose proof (Double.le_lt_trans _ _ _ E Hlt) as Hc.
              unfold flt in Hc. congruence.
           ++ apply (Hfirst j'); [lia|done].
Qed.

(** C8: for a point that has some medoid at a distance below [DBL_MAX], the
    assignment is a position [j] of the medoid list such that no medoid of
    the list is strictly nearer to the point than the one at [j], and no
    medoid at an earlier position is as near or nearer: the first medoid at
    minimum distance wins. *)
Theorem assignment_first_nearest medoids i p :
  points self !! i = Some p ->
  (exists m, m ∈ medoids /\ flt (distance_from libm self p m) DBL_MAX) ->
  exists j m,
    get_assignments libm self medoids !! i = Some (Z.of_nat j)
    /\ medoids !! j = Some m
    /\ (forall j' m', medoids !! j' = Some m' ->
          PrimFloat.ltb (distance_from libm self p m')
                        (distance_from libm self p m) = false)
    /\ (forall j' m', j' < j -> medoids !! j' = Some m' ->
          PrimFloat.leb (distance_from libm self p m')
                        (distance_from libm self p m) = false).
Proof.
  intros Hp (m1 & Hm1 & Hlt1).
  unfold get_assignments. rewrite list_lookup_fmap, Hp. simpl.
  destruct (assign_scan_spec p 0 medoids DBL_MAX (-1))
    as [[_ Hnone]|(j & m & -> & Hm & _ & Hbest & Hfirst)].
  - specialize (Hnone m1 Hm1). unfold flt in Hlt1. congruence.
  - exists j, m. done.
Qed.

(** *** The distance oracle *)

(** The point a scan for identifier [x] ends with, starting from [acc]. *)
Lemma find_endpoints_split from_id to_id ps a b :
  fold_left
    (fun '(from_point, to_point) p =>
       (if bool_decide (id p = from_id) then p else from_point,
        if bool_decide (id p = to_id) then p else to_point))
    ps (a, b)
  = (fold_left (fun acc p => if bool_decide (id p = from_id) then p else acc) ps a,
     fold_left (fun acc p => if bool_decide (id p = to_id) then p else acc) ps b).
Proof.
  revert a b. induction ps as [|p ps IH]; intros a b; simpl; [done|]. apply IH.
Qed.

Lemma scan_absent x ps acc :
  (forall q, q ∈ ps -> id q <> x) ->
  fold_left (fun acc p => if bool_decide (id p = x) then p else acc) ps acc = acc.
Proof.
  revert acc. induction ps as [|p ps IH]; intros acc Habs; simpl; [done|].
  rewrite bool_decide_eq_false_2 by (apply Habs; by left).
  apply IH. intros q Hq. apply Habs. by right.
Qed.

Lemma scan_unique p ps acc :
  NoDup (map id ps) -> p ∈ ps ->
  fold_left (fun acc q => if bool_decide (id q = id p) then q else acc) ps acc = p.
Proof.
  revert acc. induction ps as [|p0 ps IH]; intros acc Hnd Hp; simpl.
  - by apply elem_of_nil in Hp.
  - simpl in Hnd. apply NoDup_cons in Hnd as [Hfresh Hnd].
    apply elem_of_cons in Hp as [->|Hp].
    + rewrite bool_decide_eq_true_2 by done. apply scan_absent.
      intros q Hq Heq. apply Hfresh. rewrite <- Heq.
      apply list_elem_of_fmap. by exists q.
    + by apply IH.
Qed.

Lemma find_endpoints_unique p q :
  NoDup (map id (points self)) -> p ∈ points self -> q ∈ points self ->
  find_endpoints self (id p) (id q) = (p, q).
Proof.
  intros Hnd Hp Hq. unfold find_endpoints.
  rewrite find_endpoints_split. by rewrite !scan_unique.
Qed.

(** *** Dependence on the generator *)

Lemma same_draws_weaken n (g1 g2 : G) :
  same_draws (S n) g1 g2 -> same_draws n g1 g2.
Proof.
  revert g1 g2. induction n as [|n IH]; intros g1 g2 Hsame; [done|].
  intros hi. destruct (Hsame hi) as [Hdraw Hrest]. split; [done|]. by apply IH.
Qed.

Lemma init_loop_same_draws n vc medoids g1 g2 :
  same_draws n g1 g2 ->
  (init_loop n vc medoids g1).1.1 = (init_loop n vc medoids g2).1.1
  /\ (init_loop n vc medoids g1).2 = (init_loop n vc medoids g2).2.
Proof.
  revert medoids g1 g2. induction n as [|n IH]; intros medoids g1 g2 Hsame; simpl;
    [done|].
  destruct vc as [|v vc'] eqn:Evc; [done|]. rewrite <- Evc in *.
  destruct (valid_next_of vc medoids) as [|w ws] eqn:Enext; [done|].
  rewrite <- Enext.
  destruct (Hsame (length (valid_next_of vc medoids) - 1)) as [Hdraw Hrest].
  destruct (uniform_int _ g1) as [j1 g1'], (uniform_int _ g2) as [j2 g2'].
  simpl in Hdraw, Hrest. subst j2. by apply IH.
Qed.

Lemma initialize_medoids_same_draws vc g1 g2 :
  same_draws (S (Z.to_nat (k self - 1))) g1 g2 ->
  (initialize_medoids vc g1).1.1 = (initialize_medoids vc g2).1.1
  /\ (initialize_medoids vc g1).2 = (initialize_medoids vc g2).2.
Proof.
  intros Hsame. rewrite !initialize_medoids_unfold.
  destruct vc as [|v vc'] eqn:Evc.
  - by apply init_loop_same_draws, same_draws_weaken.
  - rewrite <- Evc. destruct (Hsame (length vc - 1)) as [-> Hrest].
    by apply init_loop_same_draws.
Qed.

(** C9: two runs on the same optimiser whose generators answer the draws
    alike return the same medoid set and cost and write the same output,
    the reported round count included. *)
Theorem optimize_deterministic g1 g2 :
  same_draws (S (Z.to_nat (k self - 1))) g1 g2 ->
  (optimize g1).1.1 = (optimize g2).1.1
  /\ (optimize g1).2 = (optimize g2).2.
Proof.
  intros Hsame. destruct infeasible eqn:Hfeas.
  - by rewrite !optimize_infeasible.
  - rewrite !optimize_feasible by done. cbv zeta. cbn [fst snd].
    destruct (initialize_medoids_same_draws filter_candidates.1 g1 g2 Hsame)
      as [-> ->].
    done.
Qed.

(** ** Further properties of the core *)

(** *** Candidate filtering *)

Lemma filter_from_spec i0 ps i :
  i ∈ filter_from self i0 ps <->
  exists j p, i = i0 + j /\ ps !! j = Some p /\ eligible self p.
Proof.
  revert i0. induction ps as [|p0 ps IH]; intros i0; simpl.
  - split; [intros Hi; by apply elem_of_nil in Hi|].
    intros (j & p & _ & Hj & _). by rewrite lookup_nil in Hj.
  - assert ((exists j p, i = S i0 + j /\ ps !! j = Some p /\ eligible self p) <->
            (exists j p, i = i0 + S j /\ (p0 :: ps) !! S j = Some p
                         /\ eligible self p)) as Hshift.
    { split; intros (j & p & -> & Hj & He); exists j, p;
        (split; [lia|done]). }
    case_bool_decide as Hex.
    + rewrite IH, Hshift. split.
      * intros (j & p & ? & ? & ?). by exists (S j), p.
      * intros ([|j] & p & Hi & Hj & He); [|by exists j, p].
        simpl in Hj. injection Hj as <-. by destruct He as [? _].
    + destruct (PrimFloat.ltb (max_slope self) (slope p0)) eqn:Hs.
      * rewrite IH, Hshift. split.
        -- intros (j & p & ? & ? & ?). by exists (S j), p.
        -- intros ([|j] & p & Hi & Hj & He); [|by exists j, p].
           simpl in Hj. injection Hj as <-. destruct He as [_ He]. congruence.
      * rewrite elem_of_cons, IH, Hshift. split.
        -- intros [->|(j & p & ? & ? & ?)]; [|by exists (S j), p].
           exists 0, p0. split; [lia|]. split; [done|]. by split.
        -- intros ([|j] & p & Hi & Hj & He); [left; lia|right; by exists j, p].
Qed.

Lemma filter_from_sublist i0 ps :
  sublist (filter_from self i0 ps) (seq i0 (length ps)).
Proof.
  revert i0. induction ps as [|p0 ps IH]; intros i0; simpl; [constructor|].
  case_bool_decide; [by apply sublist_cons|].
  destruct (PrimFloat.ltb _ _); [by apply sublist_cons|by apply sublist_skip].
Qed.

(** X1: the candidate list holds exactly the indices of the loaded points
    whose land type is not excluded and whose slope is not above the
    threshold, in load order and without repetition; the count written to
    the output is its length. *)
Theorem filter_candidates_spec :
  (forall i, i ∈ filter_candidates.1 <->
             exists p, points self !! i = Some p /\ eligible self p)
  /\ sublist filter_candidates.1 (seq 0 (length (points self)))
  /\ NoDup filter_candidates.1
  /\ filter_candidates.2 = [EvCandidates (length filter_candidates.1)].
Proof.
  split; [|split; [|split]].
  - intros i. simpl. rewrite filter_from_spec. split.
    + intros (j & p & -> & Hj & He). by exists p.
    + intros (p & Hp & He). by exists i, p.
  - apply filter_from_sublist.
  - eapply sublist_NoDup; [apply NoDup_seq|apply filter_from_sublist].
  - done.
Qed.

Lemma filter_candidates_eligible i :
  i ∈ filter_candidates.1 ->
  exists p, points self !! i = Some p /\ eligible self p.
Proof.
  simpl. rewrite filter_from_spec. intros (j & p & -> & Hj & He). by exists p.
Qed.

(** X2: every medoid [optimize] returns is the index of a loaded point that
    passes the land-type and slope filter, and no index is returned twice. *)
Theorem optimize_medoids_eligible rng :
  (forall m, m ∈ (optimize rng).1.1.1 ->
             exists p, points self !! m = Some p /\ eligible self p)
  /\ NoDup (optimize rng).1.1.1.
Proof.
  rewrite optimize_medoids. destruct infeasible.
  - split; [|apply NoDup_nil_2]. intros m Hm. by apply elem_of_nil in Hm.
  - destruct (initialize_medoids_ok filter_candidates.1 rng) as (_ & Hsub & Hnd).
    destruct (local_search_members filter_candidates.1
                (search_start (initialize_medoids filter_candidates.1 rng).1.1
                   ([EvCandidates (length filter_candidates.1)]
                    ++ (initialize_medoids filter_candidates.1 rng).2)))
      as [Hsub' Hnd']; [done|].
    split; [|done]. intros m Hm. by apply filter_candidates_eligible, Hsub'.
Qed.

(** *** Size of the initial set *)

Lemma satisfies_min_distance_false medoids c :
  satisfies_min_distance medoids c = false ->
  exists m, m ∈ medoids /\ too_close c m = true.
Proof.
  induction medoids as [|m0 medoids IH]; simpl; [done|].
  destruct (too_close c m0) eqn:E.
  - intros _. exists m0. split; [by left|done].
  - intros Hrest. destruct (IH Hrest) as (m & Hm & Hclose).
    exists m. split; [by right|done].
Qed.

(** An empty list of next candidates means every candidate outside the set
    is too close to a member. *)
Lemma valid_next_of_nil vc medoids :
  valid_next_of vc medoids = [] ->
  forall c, c ∈ vc -> c ∉ medoids ->
            exists m, m ∈ medoids /\ too_close c m = true.
Proof.
  intros Hnil c Hc Hfresh.
  destruct (satisfies_min_distance medoids c) eqn:Hsat;
    [|by apply satisfies_min_distance_false].
  assert (c ∈ valid_next_of vc medoids) as Hin.
  { apply valid_next_of_spec. split; [done|]. split; [done|].
    by apply satisfies_min_distance_spec. }
  rewrite Hnil in Hin. by apply elem_of_nil in Hin.
Qed.

Lemma init_loop_full_or_stuck n vc medoids rng :
  vc <> [] ->
  (length (init_loop n vc medoids rng).1.1 = length medoids + n
   /\ (init_loop n vc medoids rng).2 = [])
  \/ (length (init_loop n vc medoids rng).1.1 < length medoids + n
      /\ (init_loop n vc medoids rng).2 = [EvCannotFind (k self)]
      /\ valid_next_of vc (init_loop n vc medoids rng).1.1 = []).
Proof.
  intros Hne. revert medoids rng.
  induction n as [|n IH]; intros medoids rng; simpl.
  - left. split; [lia|done].
  - destruct vc as [|v vc'] eqn:Evc; [done|]. rewrite <- Evc in *.
    destruct (valid_next_of vc medoids) as [|w ws] eqn:Enext.
    + right. simpl. split; [lia|]. split; [done|]. done.
    + rewrite <- Enext. destruct (uniform_int _ rng) as [j rng'].
      destruct (IH (medoids ++ [valid_next_of vc medoids !!! j]) rng')
        as [[Hlen Hout]|(Hlen & Hout & Hstuck)];
        rewrite length_app in Hlen; simpl in Hlen.
      * left. split; [lia|done].
      * right. split; [lia|]. split; done.
Qed.

Lemma initialize_medoids_nil rng :
  (initialize_medoids [] rng).1.1 = [].
Proof.
  rewrite initialize_medoids_unfold. by destruct (Z.to_nat (k self - 1)).
Qed.

Lemma initialize_medoids_length_le vc rng :
  length (initialize_medoids vc rng).1.1 <= Z.to_nat (Z.max 1 (k self))
  /\ length (initialize_medoids vc rng).1.1 <= length vc.
Proof.
  split.
  - rewrite initialize_medoids_unfold. destruct vc as [|v vc'] eqn:Evc.
    + destruct (Z.to_nat (k self - 1)); simpl; lia.
    + rewrite <- Evc.
      destruct (init_loop_prefix (Z.to_nat (k self - 1)) vc
                  [vc !!! (uniform_int (length vc - 1) rng).1]
                  (uniform_int (length vc - 1) rng).2) as (extra & -> & Hlen).
      rewrite length_app. simpl. lia.
  - destruct (initialize_medoids_ok vc rng) as (_ & Hsub & Hnd).
    apply submseteq_length, NoDup_submseteq; done.
Qed.

(** X3: [optimize] never returns more medoids than there are candidates,
    and never more than [k] when [k] is at least 1 (one at most
    otherwise). *)
Theorem optimize_medoid_count rng :
  length (optimize rng).1.1.1 <= length filter_candidates.1
  /\ length (optimize rng).1.1.1 <= Z.to_nat (Z.max 1 (k self)).
Proof.
  rewrite optimize_medoids. destruct infeasible; [simpl; lia|].
  rewrite local_search_length. simpl.
  destruct (initialize_medoids_length_le filter_candidates.1 rng). done.
Qed.

(** X4: started on a non-empty candidate list with [k] at least 1, the
    initialiser either returns exactly [k] medoids and writes nothing, or
    returns fewer, writes the warning once, and is stuck: every candidate
    outside the returned set is too close to one of its members. *)
Theorem initializer_short_only_if_stuck vc rng :
  vc <> [] ->
  (1 <= k self)%Z ->
  (length (initialize_medoids vc rng).1.1 = Z.to_nat (k self)
   /\ (initialize_medoids vc rng).2 = [])
  \/ (length (initialize_medoids vc rng).1.1 < Z.to_nat (k self)
      /\ (initialize_medoids vc rng).2 = [EvCannotFind (k self)]
      /\ forall c, c ∈ vc -> c ∉ (initialize_medoids vc rng).1.1 ->
           exists m, m ∈ (initialize_medoids vc rng).1.1 /\ too_close c m = true).
Proof.
  intros Hne Hk. rewrite initialize_medoids_unfold.
  destruct vc as [|v vc'] eqn:Evc; [done|]. rewrite <- Evc in *.
  destruct (init_loop_full_or_stuck (Z.to_nat (k self - 1)) vc
              [vc !!! (uniform_int (length vc - 1) rng).1]
              (uniform_int (length vc - 1) rng).2 Hne)
    as [[Hlen Hout]|(Hlen & Hout & Hstuck)]; simpl in Hlen.
  - left. split; [lia|done].
  - right. split; [lia|]. split; [done|]. by apply valid_next_of_nil.
Qed.

(** The initialiser fills its set or gets stuck. *)
Lemma initializer_stuck_or_full vc rng :
  vc <> [] ->
  (1 <= k self)%Z ->
  length (initialize_medoids vc rng).1.1 = Z.to_nat (k self)
  \/ (length (initialize_medoids vc rng).1.1 < Z.to_nat (k self)
      /\ forall c, c ∈ vc -> c ∉ (initialize_medoids vc rng).1.1 ->
           exists m, m ∈ (initialize_medoids vc rng).1.1 /\ too_close c m = true).
Proof.
  intros Hne Hk. rewrite initialize_medoids_unfold.
  destruct vc as [|v vc'] eqn:Evc; [done|]. rewrite <- Evc in *.
  destruct (init_loop_full_or_stuck (Z.to_nat (k self - 1)) vc
              [vc !!! (uniform_int (length vc - 1) rng).1]
              (uniform_int (length vc - 1) rng).2 Hne)
    as [[Hlen Hout]|(Hlen & Hout & Hstuck)]; simpl in Hlen.
  - left. lia.
  - right. split; [lia|]. by apply valid_next_of_nil.
Qed.

(** X5: when the early return is not taken, [k] is between 1 and the largest
    [int], and no candidate is too close to another candidate, [optimize]
    returns exactly [k] medoids. *)
Theorem optimize_unconstrained_count rng :
  infeasible = false ->
  (1 <= k self < 2 ^ 31)%Z ->
  (forall a b, a ∈ filter_candidates.1 -> b ∈ filter_candidates.1 ->
               a <> b -> too_close a b = false) ->
  length (optimize rng).1.1.1 = Z.to_nat (k self).
Proof.
  intros Hfeas Hk Hfar.
  assert (Z.to_nat (k self) <= length filter_candidates.1) as Hsize.
  { change infeasible
      with (Z.of_nat (length filter_candidates.1) <? size_t_of_int (k self))%Z
      in Hfeas.
    apply Z.ltb_ge in Hfeas. unfold size_t_of_int in Hfeas.
    rewrite Z.mod_small in Hfeas by lia. lia. }
  assert (filter_candidates.1 <> []) as Hne.
  { intros E. rewrite E in Hsize. simpl in Hsize. lia. }
  rewrite optimize_medoids, Hfeas, local_search_length. simpl.
  destruct (initializer_stuck_or_full filter_candidates.1 rng Hne ltac:(lia))
    as [Hfull|(Hlen & Hstuck)]; [done|].
  exfalso.
  destruct (initialize_medoids_ok filter_candidates.1 rng) as (_ & Hsub & _).
  assert (length filter_candidates.1
          <= length (initialize_medoids filter_candidates.1 rng).1.1); [|lia].
  apply submseteq_length, NoDup_submseteq.
  - eapply sublist_NoDup; [apply NoDup_seq|apply filter_from_sublist].
  - intros c Hc.
    destruct (decide (c ∈ (initialize_medoids filter_candidates.1 rng).1.1))
      as [|Hfresh]; [done|].
    destruct (Hstuck c Hc Hfresh) as (m & Hm & Hclose).
    rewrite Hfar in Hclose; [done|done|by apply Hsub|].
    intros ->. done.
Qed.

(** *** Set and cost through the round loop *)

Section PairInvariant.

Variable vc : list nat.
Variable P : list nat -> float -> Prop.
Hypothesis P_commit :
  forall i c m cost,
    P m cost -> i < length m -> c ∈ vc -> c ∉ m ->
    pairwise_valid (<[i := c]> m) = true ->
    flt (calculate_total_cost (<[i := c]> m)) cost ->
    P (<[i := c]> m) (calculate_total_cost (<[i := c]> m)).

Lemma scan_positions_pair st :
  P (best_medoids st) (best_cost st) ->
  P (best_medoids (scan_positions vc st)) (best_cost (scan_positions vc st)).
Proof.
  intros HP.
  cut (P (best_medoids (scan_positions vc st)) (best_cost (scan_positions vc st))
       /\ length (best_medoids (scan_positions vc st)) = length (best_medoids st));
    [by intros [? _]|].
  apply (scan_positions_preserves
           (fun s => P (best_medoids s) (best_cost s)
                     /\ length (best_medoids s) = length (best_medoids st)));
    [|done].
  intros i c st' Hi Hc [HP' Hlen].
  destruct (try_swap_cases i c st') as [->|(Hfresh & Hvalid & Hlt & ->)]; [done|].
  simpl. rewrite length_insert. split; [|done].
  apply (P_commit i c _ (best_cost st')); auto. by rewrite Hlen.
Qed.

Lemma round_pair st :
  P (best_medoids st) (best_cost st) ->
  P (best_medoids (round vc st)) (best_cost (round vc st)).
Proof.
  intros HP. destruct (round_fields vc st) as (-> & -> & _).
  by apply scan_positions_pair.
Qed.

Lemma search_loop_pair fuel st :
  P (best_medoids st) (best_cost st) ->
  P (best_medoids (search_loop fuel vc st)) (best_cost (search_loop fuel vc st)).
Proof.
  revert st. induction fuel as [|fuel IH]; intros st HP; simpl; [done|].
  destruct (keep_searching st); [|done]. by apply IH, round_pair.
Qed.

End PairInvariant.

(** The final state of the round loop of [optimize]. *)
Lemma optimize_result rng :
  infeasible = false ->
  (optimize rng).1.1 =
    (best_medoids
       (local_search filter_candidates.1
          (search_start (initialize_medoids filter_candidates.1 rng).1.1
             ([EvCandidates (length filter_candidates.1)]
              ++ (initialize_medoids filter_candidates.1 rng).2))),
     best_cost
       (local_search filter_candidates.1
          (search_start (initialize_medoids filter_candidates.1 rng).1.1
             ([EvCandidates (length filter_candidates.1)]
              ++ (initialize_medoids filter_candidates.1 rng).2)))).
Proof. intros Hfeas. by rewrite optimize_feasible. Qed.

(** X6: the cost [optimize] returns is the cost of the set it returns:
    [calculate_total_cost] of that set when the search ran, and [DBL_MAX]
    with the empty set on the early return. *)
Theorem optimize_cost_of_returned_set rng :
  (infeasible = false ->
   (optimize rng).1.1.2 = calculate_total_cost (optimize rng).1.1.1)
  /\ (infeasible = true -> (optimize rng).1.1 = ([], DBL_MAX)).
Proof.
  split; intros Hfeas; [|by rewrite optimize_infeasible].
  rewrite optimize_result by done. cbn [fst snd].
  apply (search_loop_pair filter_candidates.1
           (fun m c => c = calculate_total_cost m)); [|done].
  intros i c m cost _ _ _ _ _ _. done.
Qed.

(** X7: over the whole search the result is either the initialiser's set at
    its initial cost, or a set whose cost is strictly below the initial
    cost. *)
Theorem optimize_not_worse_than_start rng :
  infeasible = false ->
  let initial := (initialize_medoids filter_candidates.1 rng).1.1 in
  (optimize rng).1.1 = (initial, calculate_total_cost initial)
  \/ flt (optimize rng).1.1.2 (calculate_total_cost initial).
Proof.
  intros Hfeas initial. rewrite optimize_result by done. cbn [fst snd].
  fold initial.
  cut ((best_medoids (local_search filter_candidates.1 (search_start initial
          ([EvCandidates (length filter_candidates.1)]
           ++ (initialize_medoids filter_candidates.1 rng).2))) = initial
        /\ best_cost (local_search filter_candidates.1 (search_start initial
          ([EvCandidates (length filter_candidates.1)]
           ++ (initialize_medoids filter_candidates.1 rng).2)))
           = calculate_total_cost initial)
       \/ flt (best_cost (local_search filter_candidates.1 (search_start initial
          ([EvCandidates (length filter_candidates.1)]
           ++ (initialize_medoids filter_candidates.1 rng).2))))
              (calculate_total_cost initial)).
  { intros [[-> ->]|Hlt]; [by left|by right]. }
  apply (search_loop_pair filter_candidates.1
           (fun m c => (m = initial /\ c = calculate_total_cost initial)
                       \/ flt c (calculate_total_cost initial))); [|by left].
  intros i c m cost [[_ ->]|Hbelow] _ _ _ _ Hlt; right; [done|].
  eapply Double.lt_trans; eauto.
Qed.

(** *** The state the search stops in *)

Lemma try_swap_quiet i c st :
  improved st = false -> improved (try_swap i c st) = false ->
  try_swap i c st = st.
Proof.
  intros Hst Hquiet.
  destruct (try_swap_cases i c st) as [->|(_ & _ & _ & E)]; [done|].
  rewrite E in Hquiet. discriminate.
Qed.

Lemma try_swap_improved i c st :
  improved st = true -> improved (try_swap i c st) = true.
Proof.
  intros Hst. destruct (try_swap_cases i c st) as [->|(_ & _ & _ & ->)]; done.
Qed.

Lemma scan_candidates_improved vc i st :
  improved st = true -> improved (scan_candidates vc i st) = true.
Proof.
  apply (scan_candidates_preserves (fun s => improved s = true)).
  intros c st' _. apply try_swap_improved.
Qed.

Lemma scan_candidates_quiet vc i st :
  improved (scan_candidates vc i st) = false ->
  scan_candidates vc i st = st /\ forall c, c ∈ vc -> try_swap i c st = st.
Proof.
  unfold scan_candidates. revert st.
  induction vc as [|c vc IH]; intros st Hquiet; simpl in *.
  - split; [done|]. intros c Hc. by apply elem_of_nil in Hc.
  - destruct (IH _ Hquiet) as [Heq Hall]. rewrite Heq in Hquiet |- *.
    assert (improved st = false) as Hst.
    { destruct (improved st) eqn:E; [|done].
      by rewrite (try_swap_improved i c st E) in Hquiet. }
    pose proof (try_swap_quiet i c st Hst Hquiet) as Hstep.
    rewrite Hstep in Hall |- *. split; [done|].
    intros c' Hc'. apply elem_of_cons in Hc' as [->|Hc']; auto.
Qed.

Lemma scan_fold_improved vc ps st :
  improved st = true ->
  improved (fold_left (fun st i => scan_candidates vc i st) ps st) = true.
Proof.
  apply (scan_fold_preserves (fun s => improved s = true)).
  intros i c st' _ _. apply try_swap_improved.
Qed.

Lemma scan_fold_quiet vc ps st :
  improved (fold_left (fun st i => scan_candidates vc i st) ps st) = false ->
  fold_left (fun st i => scan_candidates vc i st) ps st = st
  /\ forall i c, i ∈ ps -> c ∈ vc -> try_swap i c st = st.
Proof.
  revert st. induction ps as [|i ps IH]; intros st Hquiet; simpl in *.
  - split; [done|]. intros i c Hi. by apply elem_of_nil in Hi.
  - destruct (IH _ Hquiet) as [Heq Hall]. rewrite Heq in Hquiet |- *.
    destruct (scan_candidates_quiet vc i st Hquiet) as [Hrow Hrow_all].
    rewrite Hrow in Hall |- *. split; [done|].
    intros i' c Hi' Hc. apply elem_of_cons in Hi' as [->|Hi']; auto.
Qed.

(** A round that records no improvement leaves set and cost alone, and
    proves that no swap helps. *)
Lemma round_quiet vc st :
  improved (round vc st) = false ->
  best_medoids (round vc st) = best_medoids st
  /\ best_cost (round vc st) = best_cost st
  /\ swap_optimal libm self vc (best_medoids st) (best_cost st).
Proof.
  intros Hquiet. destruct (round_fields vc st) as (Hm & Hc & Hi & _).
  rewrite Hi in Hquiet. rewrite Hm, Hc.
  destruct (scan_fold_quiet vc (seq 0 (length (best_medoids st))) _ Hquiet)
    as [Heq Hall].
  unfold scan_positions. simpl. rewrite Heq. simpl.
  split; [done|]. split; [done|].
  intros i cand Hi' Hcand Hfresh Hvalid.
  specialize (Hall i cand). rewrite elem_of_seq in Hall.
  specialize (Hall ltac:(lia) Hcand).
  unfold try_swap in Hall. simpl in Hall.
  rewrite bool_decide_eq_false_2, Hvalid in Hall by done. simpl in Hall.
  destruct (PrimFloat.ltb _ _); [|done]. discriminate.
Qed.

(** X8: when the round loop entered from the initial state stops with the
    improvement flag cleared, which is always so when fewer than 50 rounds
    ran, the final set is a local optimum: replacing any one position by any
    candidate outside the set either fails the separation check or does not
    give a cost strictly below the final cost. *)
Theorem local_search_swap_optimal vc medoids out :
  let st := local_search vc (search_start medoids out) in
  improved st = false \/ iterations st < max_iterations ->
  swap_optimal libm self vc (best_medoids st) (best_cost st).
Proof.
  intros st Hstop.
  destruct (local_search_rounds vc medoids out)
    as (n & Hn & Heq & Hit & _ & Hlast & _).
  fold st in Heq, Hit, Hlast.
  assert (improved st = false) as Hquiet.
  { destruct Hstop as [?|Hlt]; [done|]. destruct Hlast as [?|Hcap]; [done|lia]. }
  destruct n as [|n]; [lia|]. simpl in Heq.
  rewrite Heq in Hquiet |- *.
  destruct (round_quiet vc _ Hquiet) as (-> & -> & Hopt). done.
Qed.

(** *** Shape of the assignment *)

(** X9: [get_assignments] answers one entry per loaded point; each entry is
    -1 or a position of the medoid list; and it is -1 exactly when no medoid
    is at a distance below [DBL_MAX] (as for an empty medoid list). *)
Theorem get_assignments_shape medoids :
  length (get_assignments libm self medoids) = length (points self)
  /\ forall i p,
       points self !! i = Some p ->
       exists a,
         get_assignments libm self medoids !! i = Some a
         /\ (-1 <= a < Z.of_nat (length medoids))%Z
         /\ (a = (-1)%Z <->
             forall m, m ∈ medoids ->
               PrimFloat.ltb (distance_from libm self p m) DBL_MAX = false).
Proof.
  split; [apply length_map|].
  intros i p Hp. unfold get_assignments. rewrite list_lookup_fmap, Hp. simpl.
  eexists. split; [done|].
  destruct (assign_scan_spec p 0 medoids DBL_MAX (-1))
    as [[-> Hnone]|(j & m & -> & Hm & Hlt & _)].
  - split; [lia|]. done.
  - apply lookup_lt_Some in Hm as Hj. simpl. split; [lia|]. split; [lia|].
    intros Hnone. specialize (Hnone m (list_elem_of_lookup_2 _ _ _ Hm)).
    unfold flt in Hlt. congruence.
Qed.

(** *** Which points the fallback uses *)

Lemma scan_last x ps acc :
  fold_left (fun acc p => if bool_decide (id p = x) then p else acc) ps acc
  = default acc (last (List.filter (fun p => bool_decide (id p = x)) ps)).
Proof.
  revert acc. induction ps as [|p ps IH]; intros acc; simpl; [done|].
  rewrite IH. case_bool_decide; [|done].
  rewrite last_cons. by destruct (last _).
Qed.

Lemma find_endpoints_last from_id to_id :
  find_endpoints self from_id to_id
  = (last_with_id self from_id, last_with_id self to_id).
Proof.
  unfold find_endpoints, last_with_id.
  by rewrite find_endpoints_split, !scan_last.
Qed.

Lemma filter_id_absent x ps :
  (forall p, p ∈ ps -> id p <> x) ->
  List.filter (fun p => bool_decide (id p = x)) ps = [].
Proof.
  induction ps as [|p ps IH]; intros Habs; simpl; [done|].
  rewrite bool_decide_eq_false_2 by (apply Habs; by left).
  apply IH. intros q Hq. apply Habs. by right.
Qed.

(** X10: without a table entry for the queried pair, [get_distance] applies
    the haversine formula to, for each identifier, the last loaded point
    that carries it.  An identifier no loaded point carries is silently
    treated as a point at latitude 0 and longitude 0; among several points
    with one identifier the one loaded last is used. *)
Theorem get_distance_fallback_points from_id to_id :
  (table_entry self (to_string from_id) (to_string to_id) = None ->
   get_distance from_id to_id =
     haversine_distance libm
       (lat (last_with_id self from_id)) (lon (last_with_id self from_id))
       (lat (last_with_id self to_id)) (lon (last_with_id self to_id)))
  /\ (forall x, (forall p, p ∈ points self -> id p <> x) ->
                last_with_id self x = Point_default)
  /\ (forall before p after,
        points self = before ++ p :: after ->
        (forall q, q ∈ after -> id q <> id p) ->
        last_with_id self (id p) = p).
Proof.
  split; [|split].
  - intros Hnone. unfold get_distance. rewrite Hnone.
    by rewrite find_endpoints_last.
  - intros x Habs. unfold last_with_id. by rewrite filter_id_absent.
  - intros before p after Hpts Habs. unfold last_with_id.
    rewrite Hpts, List.filter_app. simpl.
    rewrite bool_decide_eq_true_2 by done.
    rewrite (filter_id_absent (id p) after Habs).
    by rewrite last_snoc.
Qed.

End Properties.

(** ** The properties on concrete runs *)

Ltac list_cases H :=
  simpl in H;
  repeat (apply elem_of_cons in H as [->|H]);
  try (by apply elem_of_nil in H).

(** The four-site scenario: whatever pair the initialiser draws, the search
    ends on sites A and C at cost 40. *)
Example four_sites_from_BA :
  (optimize libm_nan (four_sites 2) [1; 0]).1.1 = ([2; 0], 40%float).
Proof. vm_compute. reflexivity. Qed.

Example four_sites_from_DA :
  (optimize libm_nan (four_sites 2) [3; 0]).1.1 = ([2; 0], 40%float).
Proof. vm_compute. reflexivity. Qed.

(** Two commits in one round: from sites D and B the first position moves
    to C (cost 110 to 50), and the second position then moves to A against
    the already improved set (cost 50 to 40). *)
Example round_commits_twice :
  let st := round libm_nan (four_sites 2) [0; 1; 2; 3]
              (search_start libm_nan (four_sites 2) [3; 1] []) in
  best_cost (search_start libm_nan (four_sites 2) [3; 1] []) = 110%float
  /\ calculate_total_cost libm_nan (four_sites 2) [2; 1] = 50%float
  /\ (best_medoids st, best_cost st, improved st) = ([2; 0], 40%float, true).
Proof. vm_compute. auto. Qed.

(** A point that is not a candidate still counts in the cost: site B is
    filtered out, and its 10 m to site A are part of the total. *)
Example excluded_site_is_served :
  (filter_candidates four_sites_lake).1 = [0; 2; 3]
  /\ calculate_total_cost libm_nan four_sites_lake [0; 2] = 40%float
  /\ (optimize libm_nan four_sites_lake [2; 0]).1.1 = ([2; 0], 40%float).
Proof. vm_compute. auto. Qed.

(** The table is read in the order queried. *)
Example one_way_distances :
  get_distance libm_nan one_way_sites 1 2 = 1%float
  /\ get_distance libm_nan one_way_sites 2 1 = 5000%float.
Proof. vm_compute. auto. Qed.

Lemma optimize_insufficient_candidates_witness :
  (k (four_sites 5) < 2 ^ 31)%Z
  /\ (Z.of_nat (length (filter_candidates (four_sites 5)).1) < k (four_sites 5))%Z
  /\ optimize libm_nan (four_sites 5) [1; 0] =
       (([], DBL_MAX), [1; 0], [EvCandidates 4; EvNotEnough 4 5]).
Proof.
  split; [|split].
  - vm_compute. reflexivity.
  - vm_compute. reflexivity.
  - apply (optimize_insufficient_candidates libm_nan (four_sites 5) [1; 0]).
    + vm_compute. reflexivity.
    + vm_compute. reflexivity.
Defined.

Lemma optimize_search_terminates_witness :
  infeasible (four_sites 2) = false
  /\ exists n,
       1 <= n <= max_iterations
       /\ (optimize libm_nan (four_sites 2) [1; 0]).2 =
            output
              (Nat.iter n (round libm_nan (four_sites 2) [0; 1; 2; 3])
                 (search_start libm_nan (four_sites 2) [1; 0] [EvCandidates 4]))
            ++ [EvConverged n].
Proof.
  split; [vm_compute; reflexivity|].
  destruct (optimize_search_terminates libm_nan (four_sites 2) [1; 0])
    as (n & Hn & _ & _ & _ & _ & Hout); [vm_compute; reflexivity|].
  exists n. split; [exact Hn|exact Hout].
Defined.

(** C1: the separation invariant does not hold of the code.  With the
    one-way table (1 m from site 1 to site 2, 5000 m back), a threshold of
    2000 m and the first draw 0, the initialiser checks only the way back
    and returns both sites; no trial is made, so [optimize] returns them,
    1 m apart.  The check of the round loop refuses this very set, and with
    the first draw 1 the initialiser itself refuses the pair and stops at one
    medoid with the warning. *)
Theorem one_way_separation_bug :
  min_distance_m one_way_sites = 2000%float
  /\ distance_between libm_nan one_way_sites 0 1 = 1%float
  /\ distance_between libm_nan one_way_sites 1 0 = 5000%float
  /\ (initialize_medoids libm_nan one_way_sites [0; 1] [0]).1.1 = [0; 1]
  /\ (optimize libm_nan one_way_sites [0]).1.1.1 = [0; 1]
  /\ pairwise_valid libm_nan one_way_sites [0; 1] = false
  /\ initialize_medoids libm_nan one_way_sites [0; 1] [1]
     = ([1], [], [EvCannotFind 2])
  /\ ~ (forall a b,
          a ∈ (optimize libm_nan one_way_sites [0]).1.1.1 ->
          b ∈ (optimize libm_nan one_way_sites [0]).1.1.1 ->
          a <> b ->
          fle (min_distance_m one_way_sites)
              (distance_between libm_nan one_way_sites a b)).
Proof.
  repeat (split; [vm_compute; reflexivity|]).
  intros Hall.
  assert ((optimize libm_nan one_way_sites [0]).1.1.1 = [0; 1]) as Hfinal
    by (vm_compute; reflexivity).
  rewrite Hfinal in Hall.
  assert (fle (min_distance_m one_way_sites)
              (distance_between libm_nan one_way_sites 0 1)) as Hle.
  { apply Hall; [by left|by right; left|done]. }
  vm_compute in Hle. discriminate.
Qed.

Lemma optimize_separated_when_symmetric_witness :
  symmetric_on libm_nan (four_sites_apart 2 0.03125)
    (filter_candidates (four_sites_apart 2 0.03125)).1
  /\ min_distance_m (four_sites_apart 2 0.03125) = 31.25%float
  /\ (optimize libm_nan (four_sites_apart 2 0.03125) [1; 0]).1.1.1 = [0; 2]
  /\ at_least_min_apart libm_nan (four_sites_apart 2 0.03125)
       (optimize libm_nan (four_sites_apart 2 0.03125) [1; 0]).1.1.1
  /\ ~ at_least_min_apart libm_nan (four_sites_apart 2 0.03125) [0; 1].
Proof.
  assert (symmetric_on libm_nan (four_sites_apart 2 0.03125)
            (filter_candidates (four_sites_apart 2 0.03125)).1) as Hsym.
  { intros a b Ha Hb. list_cases Ha; list_cases Hb; vm_compute; reflexivity. }
  assert (ordered_on libm_nan (four_sites_apart 2 0.03125)
            (filter_candidates (four_sites_apart 2 0.03125)).1) as Hord.
  { intros a b Ha Hb. list_cases Ha; list_cases Hb; vm_compute; reflexivity. }
  split; [exact Hsym|]. split; [vm_compute; reflexivity|].
  split; [vm_compute; reflexivity|]. split.
  - destruct (optimize_separated_when_symmetric libm_nan
                (four_sites_apart 2 0.03125) [1; 0] Hsym) as [_ Hall].
    exact (proj2 (Hall Hord eq_refl)).
  - intros Hall. specialize (Hall 0 1 0 1 ltac:(lia) eq_refl eq_refl).
    vm_compute in Hall. discriminate.
Defined.

Lemma first_medoid_regardless_of_k_witness :
  (filter_candidates (four_sites 0)).1 <> []
  /\ length (optimize libm_nan (four_sites 0) [1; 0]).1.1.1 = 1.
Proof.
  assert ((filter_candidates (four_sites 0)).1 <> []) as Hne
    by (vm_compute; discriminate).
  split; [exact Hne|].
  destruct (first_medoid_regardless_of_k libm_nan (four_sites 0) [1; 0] Hne)
    as [_ Hzero].
  destruct (Hzero eq_refl) as (_ & Hlen & _). exact Hlen.
Defined.



(** C8 fails as stated: site 1 is at an infinite distance from the only
    medoid, site 2; no distance is below the initial [DBL_MAX], and the
    answer for site 1 is -1, no medoid at all. *)
Lemma infinite_distance_leaves_point_unassigned :
  points inf_sites !! 0 = Some (site 1 0.5)
  /\ [1] <> []
  /\ get_assignments libm_nan inf_sites [1] = [(-1)%Z; 0%Z]
  /\ ~ (exists j m,
          get_assignments libm_nan inf_sites [1] !! 0 = Some (Z.of_nat j)
          /\ [1] !! j = Some m).
Proof.
  split; [reflexivity|]. split; [discriminate|].
  split; [vm_compute; reflexivity|].
  intros (j & m & Hj & _).
  assert (get_assignments libm_nan inf_sites [1] !! 0 = Some (-1)%Z) as Hnone
    by (vm_compute; reflexivity).
  rewrite Hnone in Hj. injection Hj as Hj. lia.
Qed.

Lemma assignment_first_nearest_witness :
  points (four_sites 2) !! 1 = Some (site 2 1)
  /\ (exists m, m ∈ [0; 2]
                /\ flt (distance_from libm_nan (four_sites 2) (site 2 1) m) DBL_MAX)
  /\ exists j m,
       get_assignments libm_nan (four_sites 2) [0; 2] !! 1 = Some (Z.of_nat j)
       /\ [0; 2] !! j = Some m.
Proof.
  assert (exists m, m ∈ [0; 2]
            /\ flt (distance_from libm_nan (four_sites 2) (site 2 1) m) DBL_MAX)
    as Hnear.
  { exists 0. split; [by left|]. vm_compute. reflexivity. }
  split; [reflexivity|]. split; [exact Hnear|].
  destruct (assignment_first_nearest libm_nan (four_sites 2) [0; 2] 1 (site 2 1)
              eq_refl Hnear) as (j & m & Hj & Hm & _).
  exists j, m. split; [exact Hj|exact Hm].
Defined.

Lemma optimize_deterministic_witness :
  same_draws (S (Z.to_nat (k (four_sites 2) - 1))) [1; 0; 7] [1; 0; 9]
  /\ (optimize libm_nan (four_sites 2) [1; 0; 7]).1.1
     = (optimize libm_nan (four_sites 2) [1; 0; 9]).1.1
  /\ (optimize libm_nan (four_sites 2) [1; 0; 7]).2
     = (optimize libm_nan (four_sites 2) [1; 0; 9]).2.
Proof.
  assert (same_draws (S (Z.to_nat (k (four_sites 2) - 1))) [1; 0; 7] [1; 0; 9])
    as Hsame.
  { simpl. intros hi. split; [reflexivity|]. intros hi'. split; [reflexivity|exact I]. }
  split; [exact Hsame|].
  exact (optimize_deterministic libm_nan (four_sites 2) [1; 0; 7] [1; 0; 9] Hsame).
Defined.

(** ** Properties of loading, reporting and the entry point *)

(** *** Comma-separated fields *)

Lemma append_cons c (s t : string) : String c s +:+ t = String c (s +:+ t).
Proof. reflexivity. Qed.

Lemma append_empty_l (s : string) : "" +:+ s = s.
Proof. reflexivity. Qed.

Lemma append_empty_r (s : string) : s +:+ "" = s.
Proof. induction s as [|c s IH]; [done|]. by rewrite append_cons, IH. Qed.

Lemma append_assoc_string (a b c : string) : (a +:+ b) +:+ c = a +:+ (b +:+ c).
Proof. induction a as [|x a IH]; [done|]. by rewrite !append_cons, IH. Qed.

Lemma tokens_from_plain cur t :
  has_comma t = false -> tokens_from cur t = [cur +:+ t].
Proof.
  revert cur. induction t as [|c t IH]; intros cur Hfree.
  - simpl. by rewrite append_empty_r.
  - simpl in Hfree. apply orb_false_iff in Hfree as [Hc Hfree].
    simpl. rewrite Hc, IH by done.
    by rewrite append_assoc_string, append_cons, append_empty_l.
Qed.

Lemma tokens_from_field cur t rest :
  has_comma t = false ->
  tokens_from cur (t +:+ String comma rest)
  = (cur +:+ t) :: match rest with
                   | EmptyString => []
                   | String _ _ => tokens_from "" rest
                   end.
Proof.
  revert cur. induction t as [|c t IH]; intros cur Hfree.
  - rewrite append_empty_l. simpl. by rewrite append_empty_r.
  - simpl in Hfree. apply orb_false_iff in Hfree as [Hc Hfree].
    rewrite append_cons. simpl. rewrite Hc, IH by done.
    by rewrite append_assoc_string, append_cons, append_empty_l.
Qed.

Lemma tokens_from_join cur t fields :
  Forall (fun f => has_comma f = false) (t :: fields) ->
  last (t :: fields) <> Some "" ->
  tokens_from cur (join_commas (t :: fields)) = (cur +:+ t) :: fields.
Proof.
  revert cur t. induction fields as [|t' fields IH]; intros cur t Hfree Hlast.
  - simpl. apply tokens_from_plain. by inversion Hfree.
  - change (join_commas (t :: t' :: fields))
      with (t +:+ String comma (join_commas (t' :: fields))).
    inversion Hfree as [|? ? Ht Hrest]; subst.
    rewrite tokens_from_field by done. f_equal.
    rewrite last_cons_cons in Hlast.
    pose proof (IH "" t' Hrest Hlast) as Hnext.
    rewrite append_empty_l in Hnext.
    destruct (join_commas (t' :: fields)) eqn:E; [|done].
    simpl in Hnext. injection Hnext as Ht' Hf. subst.
    simpl in Hlast. done.
Qed.

Lemma tokens_from_join_comma cur t fields :
  Forall (fun f => has_comma f = false) (t :: fields) ->
  tokens_from cur (join_commas (t :: fields) +:+ ",") = (cur +:+ t) :: fields.
Proof.
  revert cur t. induction fields as [|t' fields IH]; intros cur t Hfree.
  - simpl. inversion Hfree; subst.
    change (t +:+ ",") with (t +:+ String comma ""). by rewrite tokens_from_field.
  - change (join_commas (t :: t' :: fields))
      with (t +:+ String comma (join_commas (t' :: fields))).
    inversion Hfree as [|? ? Ht Hrest]; subst.
    rewrite append_assoc_string, append_cons.
    rewrite tokens_from_field by done. f_equal.
    pose proof (IH "" t' Hrest) as Hnext.
    rewrite append_empty_l in Hnext.
    destruct (join_commas (t' :: fields) +:+ ",") eqn:E; [|done].
    destruct (join_commas (t' :: fields)); discriminate.
Qed.

(** X11: splitting at commas undoes joining with commas.  For fields that
    hold no comma, the tokens read from the joined line are the fields
    again, provided the last field is not empty; and after a line that ends
    in one more comma the tokens are the fields whatever the last one is, so
    a final comma adds no field. *)
Theorem getline_tokens_join fields :
  Forall (fun f => has_comma f = false) fields ->
  (last fields <> Some "" -> getline_tokens (join_commas fields) = fields)
  /\ (fields <> [] -> getline_tokens (join_commas fields +:+ ",") = fields).
Proof.
  intros Hfree. split.
  - intros Hlast. destruct fields as [|t fields]; [done|].
    pose proof (tokens_from_join "" t fields Hfree Hlast) as Htok.
    rewrite append_empty_l in Htok. unfold getline_tokens.
    destruct (join_commas (t :: fields)) eqn:E; [|done].
    simpl in Htok. injection Htok as Ht Hf. subst. done.
  - intros Hne. destruct fields as [|t fields]; [done|].
    pose proof (tokens_from_join_comma "" t fields Hfree) as Htok.
    rewrite append_empty_l in Htok. unfold getline_tokens.
    destruct (join_commas (t :: fields) +:+ ",") eqn:E; [|done].
    destruct (join_commas (t :: fields)); discriminate.
Qed.

(** *** The loaders *)

(** A store changes the entry of its own key pair and of no other. *)
Lemma matrix_entry_store dm fk tk d fk' tk' :
  matrix_entry (matrix_store dm fk tk d) fk' tk'
  = if decide (fk = fk' /\ tk = tk') then Some d else matrix_entry dm fk' tk'.
Proof.
  unfold matrix_entry, matrix_store.
  destruct (decide (fk = fk')) as [<-|Hfk].
  - rewrite lookup_insert_eq. simpl.
    destruct (decide (tk = tk')) as [<-|Htk].
    + rewrite lookup_insert_eq. by rewrite decide_True.
    + rewrite lookup_insert_ne by done. rewrite decide_False by tauto.
      by destruct (dm !! fk).
  - rewrite lookup_insert_ne by done. by rewrite decide_False by tauto.
Qed.

Section LoadingProperties.

Variable parsers : Parsers.
Variable fs : string -> option (list string).

Lemma outcome_bind_returns {A B} (x : outcome A) (f : A -> outcome B) (b : B) :
  x ≫= f = Returns b -> exists a, x = Returns a /\ f a = Returns b.
Proof. destruct x as [a| |]; simpl; intros Hb; [by exists a|done|done]. Qed.

Lemma parse_point_line_defaults line p :
  parse_point_line parsers line = Returns p ->
  land_type p = "" /\ slope p = 0%float /\ elevation p = 0%float.
Proof.
  unfold parse_point_line. intros Hp.
  apply outcome_bind_returns in Hp as (i & _ & Hp).
  apply outcome_bind_returns in Hp as (la & _ & Hp).
  apply outcome_bind_returns in Hp as (lo & _ & Hp).
  apply outcome_bind_returns in Hp as (q & _ & Hp).
  injection Hp as <-. done.
Qed.

Lemma read_points_returns lines new :
  read_points parsers lines = Returns new ->
  length new = length lines
  /\ Forall (fun p => land_type p = "" /\ slope p = 0%float
                      /\ elevation p = 0%float) new.
Proof.
  revert new. induction lines as [|line lines IH]; intros new Hread; simpl in Hread.
  - injection Hread as <-. done.
  - apply outcome_bind_returns in Hread as (p & Hp & Hread).
    apply outcome_bind_returns in Hread as (ps & Hps & Hread).
    injection Hread as <-. destruct (IH ps Hps) as [Hlen Hall].
    split; [simpl; lia|]. constructor; [|done].
    by eapply parse_point_line_defaults.
Qed.

Lemma parse_field_returns {A} (parse : string -> option A) token initial v :
  parse_field parse token initial = Returns v -> field_ok parse token initial v.
Proof.
  unfold parse_field, field_ok. destruct token as [t|]; [|by intros [= <-]].
  destruct (parse t); [by intros [= <-]|done].
Qed.

Lemma parse_field_rejected {A} (parse : string -> option A) t initial :
  parse t = None -> parse_field parse (Some t) initial = Throws.
Proof. unfold parse_field. by intros ->. Qed.

Lemma parse_field_defined {A} (parse : string -> option A) token initial :
  parse_field parse token initial <> Undefined.
Proof. unfold parse_field. destruct token as [t|]; [|done]. by destruct (parse t). Qed.

(** The fields of a point read from a line, token by token. *)
Lemma parse_point_line_fields line p :
  parse_point_line parsers line = Returns p ->
  field_ok (stoi parsers) (getline_tokens line !! 0) 0%Z (id p)
  /\ field_ok (stod parsers) (getline_tokens line !! 1) 0%float (lat p)
  /\ field_ok (stod parsers) (getline_tokens line !! 2) 0%float (lon p)
  /\ field_ok (stod parsers) (getline_tokens line !! 3) 0%float
              (resource_quantity p)
  /\ land_type p = "" /\ slope p = 0%float /\ elevation p = 0%float.
Proof.
  unfold parse_point_line. intros Hp.
  apply outcome_bind_returns in Hp as (i & Hi & Hp).
  apply outcome_bind_returns in Hp as (la & Hla & Hp).
  apply outcome_bind_returns in Hp as (lo & Hlo & Hp).
  apply outcome_bind_returns in Hp as (q & Hq & Hp).
  injection Hp as <-. simpl.
  repeat (split; [by apply parse_field_returns|]). done.
Qed.

(** A rejected token among the first four fields makes the line throw. *)
Lemma parse_point_line_rejected line n t :
  getline_tokens line !! n = Some t ->
  (n = 0 /\ stoi parsers t = None) \/ (1 <= n <= 3 /\ stod parsers t = None) ->
  parse_point_line parsers line = Throws.
Proof.
  intros Ht Hbad. unfold parse_point_line.
  destruct Hbad as [[-> Hbad]|[Hn Hbad]].
  { rewrite Ht. by rewrite parse_field_rejected. }
  destruct (parse_field (stoi parsers) (getline_tokens line !! 0) 0%Z) as [i| |] eqn:E0;
    [simpl|done|by destruct (parse_field_defined _ _ _ E0)].
  destruct (decide (n = 1)) as [->|].
  { rewrite Ht. by rewrite parse_field_rejected. }
  destruct (parse_field (stod parsers) (getline_tokens line !! 1) 0%float) as [la| |] eqn:E1;
    [simpl|done|by destruct (parse_field_defined _ _ _ E1)].
  destruct (decide (n = 2)) as [->|].
  { rewrite Ht. by rewrite parse_field_rejected. }
  destruct (parse_field (stod parsers) (getline_tokens line !! 2) 0%float) as [lo| |] eqn:E2;
    [simpl|done|by destruct (parse_field_defined _ _ _ E2)].
  assert (n = 3) as -> by lia.
  rewrite Ht. by rewrite parse_field_rejected.
Qed.

Lemma parse_point_line_defined line : parse_point_line parsers line <> Undefined.
Proof.
  unfold parse_point_line.
  destruct (parse_field (stoi parsers) _ _) as [i| |] eqn:E0;
    [simpl|done|by destruct (parse_field_defined _ _ _ E0)].
  destruct (parse_field (stod parsers) (getline_tokens line !! 1) _) as [la| |] eqn:E1;
    [simpl|done|by destruct (parse_field_defined _ _ _ E1)].
  destruct (parse_field (stod parsers) (getline_tokens line !! 2) _) as [lo| |] eqn:E2;
    [simpl|done|by destruct (parse_field_defined _ _ _ E2)].
  destruct (parse_field (stod parsers) (getline_tokens line !! 3) _) as [q| |] eqn:E3;
    [done|done|by destruct (parse_field_defined _ _ _ E3)].
Qed.

Lemma read_points_lookup lines new i line :
  read_points parsers lines = Returns new ->
  lines !! i = Some line ->
  exists p, new !! i = Some p /\ parse_point_line parsers line = Returns p.
Proof.
  revert new i. induction lines as [|l lines IH]; intros new i Hread Hline;
    [by rewrite lookup_nil in Hline|].
  simpl in Hread.
  apply outcome_bind_returns in Hread as (p & Hp & Hread).
  apply outcome_bind_returns in Hread as (ps & Hps & Hread).
  injection Hread as <-. destruct i as [|i]; simpl in *.
  - injection Hline as <-. by exists p.
  - by eapply IH.
Qed.

Lemma read_points_defined lines : read_points parsers lines <> Undefined.
Proof.
  induction lines as [|l lines IH]; simpl; [done|].
  destruct (parse_point_line parsers l) as [p| |] eqn:E;
    [simpl|done|by destruct (parse_point_line_defined _ E)].
  by destruct (read_points parsers lines).
Qed.

Lemma read_points_rejected lines i line :
  lines !! i = Some line ->
  parse_point_line parsers line = Throws ->
  read_points parsers lines = Throws.
Proof.
  revert i. induction lines as [|l lines IH]; intros i Hline Hbad;
    [by rewrite lookup_nil in Hline|].
  simpl. destruct i as [|i]; simpl in Hline.
  - injection Hline as ->. by rewrite Hbad.
  - destruct (parse_point_line parsers l) as [p| |] eqn:E;
      [simpl|done|by destruct (parse_point_line_defined _ E)].
    by rewrite (IH i Hline Hbad).
Qed.

(** X12: [load_points] keeps the points it had and puts, for the line at
    position [i] after the header, one point at position [i] behind them.
    The identifier of that point is what [std::stoi] makes of the first
    field of the line, and latitude, longitude and resource quantity are
    what [std::stod] makes of the second, third and fourth; a field the line
    does not have stays 0, further fields are ignored, land type, slope and
    elevation are empty and 0; so a blank line adds the all-zero point.  If
    one of the first four fields of a line is rejected by its parser the
    call throws.  A file that cannot be opened is reported and leaves the
    optimiser as it was; that is no exception. *)
Theorem load_points_appends filename self :
  (fs filename = None ->
   load_points parsers fs filename self = Returns (self, [ErrCannotOpen filename]))
  /\ (forall lines self' out,
        fs filename = Some lines ->
        load_points parsers fs filename self = Returns (self', out) ->
        length (points self') = length (points self) + (length lines - 1)
        /\ (forall i p, points self !! i = Some p -> points self' !! i = Some p)
        /\ (forall i line,
              tail lines !! i = Some line ->
              exists p,
                points self' !! (length (points self) + i) = Some p
                /\ field_ok (stoi parsers) (getline_tokens line !! 0) 0%Z (id p)
                /\ field_ok (stod parsers) (getline_tokens line !! 1) 0%float (lat p)
                /\ field_ok (stod parsers) (getline_tokens line !! 2) 0%float (lon p)
                /\ field_ok (stod parsers) (getline_tokens line !! 3) 0%float
                            (resource_quantity p)
                /\ land_type p = "" /\ slope p = 0%float
                /\ elevation p = 0%float)
        /\ (forall i, tail lines !! i = Some "" ->
                      points self' !! (length (points self) + i)
                      = Some Point_default)
        /\ distance_matrix self' = distance_matrix self
        /\ (k self', min_distance_km self', exclude_land_types self',
            max_slope self')
           = (k self, min_distance_km self, exclude_land_types self,
              max_slope self)
        /\ out = [LoadedPoints (length (points self'))])
  /\ (forall lines i line n t,
        fs filename = Some lines ->
        tail lines !! i = Some line ->
        getline_tokens line !! n = Some t ->
        (n = 0 /\ stoi parsers t = None)
        \/ (1 <= n <= 3 /\ stod parsers t = None) ->
        load_points parsers fs filename self = Throws).
Proof.
  split; [|split].
  - intros Hfile. unfold load_points. by rewrite Hfile.
  - intros lines self' out Hfile. unfold load_points. rewrite Hfile.
    intros Hload. apply outcome_bind_returns in Hload as (new & Hnew & Hload).
    injection Hload as <- <-. simpl.
    destruct (read_points_returns _ _ Hnew) as [Hlen _].
    assert (forall i line,
              tail lines !! i = Some line ->
              exists p, (points self ++ new) !! (length (points self) + i) = Some p
                        /\ parse_point_line parsers line = Returns p) as Hat.
    { intros i line Hline.
      destruct (read_points_lookup _ _ _ _ Hnew Hline) as (p & Hp & Hparse).
      exists p. split; [|done]. by rewrite lookup_app_r, Nat.add_sub' by lia. }
    split. { rewrite length_app, Hlen. destruct lines; simpl; lia. }
    split. { intros i p Hp. by apply lookup_app_l_Some. }
    split.
    { intros i line Hline. destruct (Hat i line Hline) as (p & Hp & Hparse).
      exists p. split; [done|]. by apply parse_point_line_fields. }
    split; [|done].
    intros i Hline. destruct (Hat i "" Hline) as (p & Hp & Hparse).
    rewrite Hp. f_equal. by injection Hparse as <-.
  - intros lines i line n t Hfile Hline Ht Hbad.
    unfold load_points. rewrite Hfile.
    rewrite (read_points_rejected _ i line Hline); [done|].
    by eapply parse_point_line_rejected.
Qed.

(** *** Zone features *)

Lemma zone_map_fold_lookup zones (m : gmap Z Point) x :
  fold_left (fun zone_map zone => <[id zone := zone]> zone_map) zones m !! x
  = match last (List.filter (fun z => bool_decide (id z = x)) zones) with
    | Some z => Some z
    | None => m !! x
    end.
Proof.
  revert m. induction zones as [|z zones IH]; intros m; simpl; [done|].
  rewrite IH. case_bool_decide as Hid.
  - rewrite last_cons. destruct (last _); [done|].
    subst x. by rewrite lookup_insert_eq.
  - destruct (last _); [done|]. by rewrite lookup_insert_ne.
Qed.

Lemma zone_map_of_lookup zones x :
  zone_map_of zones !! x
  = last (List.filter (fun z => bool_decide (id z = x)) zones).
Proof.
  unfold zone_map_of. rewrite zone_map_fold_lookup. by destruct (last _).
Qed.

Lemma field_ok_unique {A} (parse : string -> option A) token initial v v' :
  field_ok parse token initial v -> field_ok parse token initial v' -> v = v'.
Proof. unfold field_ok. destruct token; congruence. Qed.

(** The fields of a zone record read from a line, token by token. *)
Lemma parse_zone_line_fields line z :
  parse_zone_line parsers line = Returns z ->
  field_ok (stoi parsers) (getline_tokens line !! 0) 0%Z (id z)
  /\ field_ok (stod parsers) (getline_tokens line !! 1) 0%float (slope z)
  /\ field_ok (stod parsers) (getline_tokens line !! 2) 0%float (elevation z)
  /\ field_ok Some (getline_tokens line !! 3) "" (land_type z).
Proof.
  unfold parse_zone_line. intros Hz.
  apply outcome_bind_returns in Hz as (i & Hi & Hz).
  apply outcome_bind_returns in Hz as (sl & Hsl & Hz).
  apply outcome_bind_returns in Hz as (el & Hel & Hz).
  apply outcome_bind_returns in Hz as (lt & Hlt & Hz).
  injection Hz as <-. simpl.
  repeat (split; [by apply parse_field_returns|]). by apply parse_field_returns.
Qed.

(** The records read from the lines, position by position. *)
Lemma read_zones_lookup lines zones :
  read_zones parsers lines = Returns zones ->
  Forall2 (fun line z => parse_zone_line parsers line = Returns z) lines zones.
Proof.
  revert zones. induction lines as [|l lines IH]; intros zones Hread;
    simpl in Hread.
  - injection Hread as <-. constructor.
  - apply outcome_bind_returns in Hread as (z & Hz & Hread).
    apply outcome_bind_returns in Hread as (zs & Hzs & Hread).
    injection Hread as <-. constructor; [done|by apply IH].
Qed.

Lemma last_filter_at {A} (P : A -> bool) (l : list A) n z :
  l !! n = Some z -> P z = true ->
  (forall n' z', n < n' -> l !! n' = Some z' -> P z' = false) ->
  last (List.filter P l) = Some z.
Proof.
  revert n. induction l as [|x l IH]; intros n Hn Hz Hlater;
    [by rewrite lookup_nil in Hn|].
  destruct n as [|n]; simpl in Hn.
  - injection Hn as ->. simpl. rewrite Hz.
    assert (List.filter P l = []) as ->; [|done].
    clear IH. induction l as [|y l IH]; [done|]. simpl.
    rewrite (Hlater 1 y ltac:(lia) eq_refl).
    apply IH. intros [|n'] z' Hn' Hz'; [lia|].
    apply (Hlater (S (S n')) z'); [lia|done].
  - assert (last (List.filter P l) = Some z) as Hrest.
    { apply (IH n Hn Hz). intros n' z' Hn' Hz'.
      apply (Hlater (S n') z'); [lia|done]. }
    simpl. destruct (P x); [|done]. by rewrite last_cons, Hrest.
Qed.

Lemma filter_none_at {A} (P : A -> bool) (l : list A) :
  (forall n z, l !! n = Some z -> P z = false) -> List.filter P l = [].
Proof.
  induction l as [|x l IH]; intros Hnone; [done|]. simpl.
  rewrite (Hnone 0 x eq_refl). apply IH.
  intros n z Hn. by apply (Hnone (S n) z).
Qed.

(** X13: [load_zone_features] keeps the number and order of the points and
    each point's identifier, coordinates and resource quantity.  A zone
    line carries the identifier that [std::stoi] makes of its first field
    (0 when the line is blank).  A point whose identifier no zone line
    carries is left as it is.  Otherwise the last zone line of the file that
    carries its identifier decides: the slope and the elevation of the point
    are what [std::stod] makes of the second and third field of that line (0
    for a missing field), and its land type is the fourth field as it stands
    (empty when missing). *)
Theorem load_zone_features_merges filename self lines self' out :
  fs filename = Some lines ->
  load_zone_features parsers fs filename self = Returns (self', out) ->
  length (points self') = length (points self)
  /\ forall i p,
       points self !! i = Some p ->
       exists p',
         points self' !! i = Some p'
         /\ id p' = id p /\ lat p' = lat p /\ lon p' = lon p
         /\ resource_quantity p' = resource_quantity p
         /\ ((forall n line,
                tail lines !! n = Some line ->
                ~ field_ok (stoi parsers) (getline_tokens line !! 0) 0%Z (id p)) ->
             p' = p)
         /\ (forall n line,
               tail lines !! n = Some line ->
               field_ok (stoi parsers) (getline_tokens line !! 0) 0%Z (id p) ->
               (forall n' line',
                  n < n' -> tail lines !! n' = Some line' ->
                  ~ field_ok (stoi parsers) (getline_tokens line' !! 0) 0%Z (id p)) ->
               field_ok (stod parsers) (getline_tokens line !! 1) 0%float (slope p')
               /\ field_ok (stod parsers) (getline_tokens line !! 2) 0%float
                           (elevation p')
               /\ field_ok Some (getline_tokens line !! 3) "" (land_type p')).
Proof.
  intros Hfile. unfold load_zone_features. rewrite Hfile. intros Hload.
  apply outcome_bind_returns in Hload as (zones & Hzones & Hload).
  injection Hload as <- <-. simpl.
  apply read_zones_lookup in Hzones.
  split; [apply length_map|].
  intros i p Hp. exists (merge_zone (zone_map_of zones) p).
  split; [by rewrite list_lookup_fmap, Hp|].
  (* whether the record at a position carries the identifier of [p] *)
  assert (forall n line z,
            tail lines !! n = Some line -> zones !! n = Some z ->
            (bool_decide (id z = id p) = true <->
             field_ok (stoi parsers) (getline_tokens line !! 0) 0%Z (id p)))
    as Hcarries.
  { intros n line z Hline Hz.
    destruct (Forall2_lookup_l _ _ _ _ _ Hzones Hline) as (z' & Hz' & Hparse).
    rewrite Hz in Hz'. injection Hz' as <-.
    apply parse_zone_line_fields in Hparse as (Hid & _).
    rewrite bool_decide_eq_true. split.
    - by intros <-.
    - intros Hp'. by eapply field_ok_unique. }
  unfold merge_zone. rewrite zone_map_of_lookup.
  do 4 (split; [by destruct (last _)|]). split.
  - intros Hnone.
    rewrite (filter_none_at (fun z => bool_decide (id z = id p)) zones); [done|].
    intros n z Hz.
    destruct (Forall2_lookup_r _ _ _ _ _ Hzones Hz) as (line & Hline & _).
    destruct (bool_decide (id z = id p)) eqn:E; [|done].
    destruct (Hnone n line Hline). by apply (Hcarries n line z).
  - intros n line Hline Hcarry Hlater.
    destruct (Forall2_lookup_l _ _ _ _ _ Hzones Hline) as (z & Hz & Hparse).
    rewrite (last_filter_at (fun z => bool_decide (id z = id p)) zones n z Hz).
    + simpl. by apply parse_zone_line_fields in Hparse as (_ & ? & ? & ?).
    + by apply (Hcarries n line z).
    + intros n' z' Hn' Hz'.
      destruct (Forall2_lookup_r _ _ _ _ _ Hzones Hz') as (line' & Hline' & _).
      destruct (bool_decide (id z' = id p)) eqn:E; [|done].
      destruct (Hlater n' line' Hn' Hline'). by apply (Hcarries n' line' z').
Qed.

(** *** The distance table *)

(** The key under which row or column [r] is stored. *)
Lemma point_key_inj (pts : list Point) r r' :
  NoDup (map id pts) -> r < length pts -> r' < length pts ->
  to_string (id (pts !!! r)) = to_string (id (pts !!! r')) -> r = r'.
Proof.
  intros Hnd Hr Hr' Hkey. unfold to_string in Hkey. apply (inj pretty) in Hkey.
  apply list_lookup_lookup_total_lt in Hr, Hr'.
  eapply NoDup_lookup; [exact Hnd| |];
    rewrite list_lookup_fmap; [rewrite Hr|rewrite Hr']; simpl; [done|].
  by rewrite Hkey.
Qed.

(** Cells that are not written keep their entry. *)
Lemma fill_cells_frame pts row col tokens dm dm' fk tk :
  fill_cells parsers pts row col tokens dm = Returns dm' ->
  (forall j, j < length tokens -> row < length pts -> col + j < length pts ->
             fk = to_string (id (pts !!! row)) ->
             tk <> to_string (id (pts !!! (col + j)))) ->
  matrix_entry dm' fk tk = matrix_entry dm fk tk.
Proof.
  revert col dm. induction tokens as [|t tokens IH]; intros col dm Hfill Hother;
    simpl in Hfill.
  - by injection Hfill as <-.
  - assert (forall j, j < length tokens -> row < length pts ->
                      S col + j < length pts ->
                      fk = to_string (id (pts !!! row)) ->
                      tk <> to_string (id (pts !!! (S col + j)))) as Hrest.
    { intros j Hj Hrow Hcol. replace (S col + j) with (col + S j) by lia.
      apply Hother; simpl; lia. }
    destruct ((row <? length pts) && (col <? length pts)) eqn:Hin.
    + destruct (stod parsers t) as [d|]; [|done].
      rewrite (IH _ _ Hfill Hrest), matrix_entry_store.
      apply andb_true_iff in Hin as [Hrow Hcol].
      apply Nat.ltb_lt in Hrow, Hcol.
      rewrite decide_False; [done|]. intros [<- <-].
      apply (Hother 0); simpl; try lia; [done|]. by rewrite Nat.add_0_r.
    + by apply (IH _ _ Hfill).
Qed.

(** A cell inside the square is stored, times 1000, and stays. *)
Lemma fill_cells_hit pts row col tokens dm dm' j t d :
  NoDup (map id pts) ->
  fill_cells parsers pts row col tokens dm = Returns dm' ->
  row < length pts -> col + j < length pts ->
  tokens !! j = Some t -> stod parsers t = Some d ->
  matrix_entry dm' (to_string (id (pts !!! row)))
                   (to_string (id (pts !!! (col + j))))
  = Some (d * 1000)%float.
Proof.
  intros Hnd. revert col dm j.
  induction tokens as [|t0 tokens IH]; intros col dm j Hfill Hrow Hcol Ht Hd;
    simpl in Hfill; [by rewrite lookup_nil in Ht|].
  assert ((row <? length pts) && (col <? length pts) = true) as Hin.
  { apply andb_true_iff. split; apply Nat.ltb_lt; lia. }
  rewrite Hin in Hfill.
  destruct (stod parsers t0) as [d0|] eqn:Hd0; [|done].
  destruct j as [|j]; simpl in Ht.
  - injection Ht as ->. rewrite Hd in Hd0. injection Hd0 as <-.
    rewrite Nat.add_0_r in *.
    rewrite (fill_cells_frame _ _ _ _ _ _ _ _ Hfill).
    + rewrite matrix_entry_store. by rewrite decide_True.
    + intros j' Hj' _ Hcol' _ Hkey.
      apply point_key_inj in Hkey; [lia|done|lia|lia].
  - replace (col + S j) with (S col + j) in * by lia.
    by eapply IH.
Qed.

Lemma fill_rows_frame pts row lines dm dm' fk tk :
  fill_rows parsers pts row lines dm = Returns dm' ->
  (forall r c, r < length pts -> c < length pts ->
               fk = to_string (id (pts !!! r)) ->
               tk = to_string (id (pts !!! c)) -> r < row) ->
  matrix_entry dm' fk tk = matrix_entry dm fk tk.
Proof.
  revert row dm. induction lines as [|line lines IH]; intros row dm Hfill Hother;
    simpl in Hfill.
  - by injection Hfill as <-.
  - apply outcome_bind_returns in Hfill as (dm1 & Hcells & Hfill).
    rewrite (IH _ _ Hfill).
    + apply (fill_cells_frame _ _ _ _ _ _ _ _ Hcells).
      intros j Hj Hrow Hcol Hfk Htk. simpl in Hcol.
      specialize (Hother row j Hrow Hcol Hfk Htk). lia.
    + intros r c Hr Hc Hfk Htk. specialize (Hother r c Hr Hc Hfk Htk). lia.
Qed.

Lemma fill_rows_hit pts row lines dm dm' i j line t d :
  NoDup (map id pts) ->
  fill_rows parsers pts row lines dm = Returns dm' ->
  row + i < length pts -> j < length pts ->
  lines !! i = Some line ->
  tail (getline_tokens line) !! j = Some t -> stod parsers t = Some d ->
  matrix_entry dm' (to_string (id (pts !!! (row + i))))
                   (to_string (id (pts !!! j)))
  = Some (d * 1000)%float.
Proof.
  intros Hnd. revert row dm i.
  induction lines as [|line0 lines IH]; intros row dm i Hfill Hrow Hcol Hline Ht Hd;
    simpl in Hfill; [by rewrite lookup_nil in Hline|].
  apply outcome_bind_returns in Hfill as (dm1 & Hcells & Hfill).
  destruct i as [|i]; simpl in Hline.
  - injection Hline as ->. rewrite Nat.add_0_r in *.
    rewrite (fill_rows_frame _ _ _ _ _ _ _ Hfill).
    + by apply (fill_cells_hit _ _ 0 _ _ _ j t d Hnd Hcells).
    + intros r c Hr Hc Hfk Htk.
      apply point_key_inj in Hfk; [lia|done|lia|lia].
  - replace (row + S i) with (S row + i) in * by lia.
    by eapply IH.
Qed.

(** X14: after [load_distances] has read a file without an exception, the
    distance between two loaded points with unique identifiers is the cell
    of the file at the row of the first and the column of the second, taken
    in the given direction and multiplied by 1000 (kilometres to metres);
    the header line and the first field of every line are skipped. *)
Theorem load_distances_then_get_distance libm filename self lines self' out
    i j p q line t d :
  NoDup (map id (points self)) ->
  fs filename = Some lines ->
  load_distances parsers fs filename self = Returns (self', out) ->
  points self !! i = Some p ->
  points self !! j = Some q ->
  tail lines !! i = Some line ->
  tail (getline_tokens line) !! j = Some t ->
  stod parsers t = Some d ->
  get_distance libm self' (id p) (id q) = (d * 1000)%float.
Proof.
  intros Hnd Hfile. unfold load_distances. rewrite Hfile. intros Hload Hp Hq Hline Ht Hd.
  apply outcome_bind_returns in Hload as (dm & Hdm & Hload).
  injection Hload as <- <-.
  pose proof (lookup_lt_Some _ _ _ Hp) as Hi.
  pose proof (lookup_lt_Some _ _ _ Hq) as Hj.
  pose proof (fill_rows_hit _ 0 _ _ _ i j line t d Hnd Hdm Hi Hj Hline Ht Hd)
    as Hentry.
  simpl in Hentry.
  rewrite (list_lookup_total_correct _ _ _ Hp) in Hentry.
  rewrite (list_lookup_total_correct _ _ _ Hq) in Hentry.
  unfold get_distance, table_entry. simpl.
  unfold matrix_entry in Hentry. by rewrite Hentry.
Qed.

(** The inner loop hands a cell to [std::stod] exactly when the cell lies
    inside the square of the loaded points. *)
Lemma fill_cells_returns pts row col tokens dm :
  (forall j t, tokens !! j = Some t -> row < length pts -> col + j < length pts ->
               is_Some (stod parsers t)) ->
  exists dm', fill_cells parsers pts row col tokens dm = Returns dm'.
Proof.
  revert col dm. induction tokens as [|t0 tokens IH]; intros col dm Hcells;
    simpl; [by eexists|].
  assert (forall j t, tokens !! j = Some t -> row < length pts ->
                      S col + j < length pts -> is_Some (stod parsers t))
    as Hrest.
  { intros j t Ht Hrow Hcol. apply (Hcells (S j) t Ht Hrow). lia. }
  destruct ((row <? length pts) && (col <? length pts)) eqn:Hin;
    [|by apply IH].
  apply andb_true_iff in Hin as [Hrow Hcol].
  apply Nat.ltb_lt in Hrow, Hcol.
  destruct (Hcells 0 t0 eq_refl Hrow ltac:(lia)) as [d ->]. by apply IH.
Qed.

Lemma fill_cells_throws pts row col tokens dm j t :
  tokens !! j = Some t -> row < length pts -> col + j < length pts ->
  stod parsers t = None ->
  fill_cells parsers pts row col tokens dm = Throws.
Proof.
  revert col dm j. induction tokens as [|t0 tokens IH];
    intros col dm j Ht Hrow Hcol Hbad; [by rewrite lookup_nil in Ht|].
  simpl.
  assert ((row <? length pts) && (col <? length pts) = true) as ->.
  { apply andb_true_iff. split; apply Nat.ltb_lt; lia. }
  destruct j as [|j]; simpl in Ht.
  - injection Ht as ->. by rewrite Hbad.
  - destruct (stod parsers t0); [|done].
    apply (IH (S col) _ j Ht Hrow); [lia|done].
Qed.

Lemma fill_cells_defined pts row col tokens dm :
  fill_cells parsers pts row col tokens dm <> Undefined.
Proof.
  revert col dm. induction tokens as [|t0 tokens IH]; intros col dm; simpl;
    [done|].
  destruct ((row <? length pts) && (col <? length pts)); [|apply IH].
  destruct (stod parsers t0); [apply IH|done].
Qed.

Lemma fill_rows_returns pts row lines dm :
  (forall i j line t,
     lines !! i = Some line -> tail (getline_tokens line) !! j = Some t ->
     row + i < length pts -> j < length pts -> is_Some (stod parsers t)) ->
  exists dm', fill_rows parsers pts row lines dm = Returns dm'.
Proof.
  revert row dm. induction lines as [|line lines IH]; intros row dm Hcells;
    simpl; [by eexists|].
  destruct (fill_cells_returns pts row 0 (tail (getline_tokens line)) dm)
    as [dm1 ->].
  { intros j t Ht Hrow Hcol. apply (Hcells 0 j line t eq_refl Ht); lia. }
  simpl. apply IH. intros i j line' t Hline Ht Hrow Hcol.
  apply (Hcells (S i) j line' t Hline Ht); lia.
Qed.

Lemma fill_rows_throws pts row lines dm i j line t :
  lines !! i = Some line -> tail (getline_tokens line) !! j = Some t ->
  row + i < length pts -> j < length pts -> stod parsers t = None ->
  fill_rows parsers pts row lines dm = Throws.
Proof.
  revert row dm i. induction lines as [|line0 lines IH];
    intros row dm i Hline Ht Hrow Hcol Hbad; [by rewrite lookup_nil in Hline|].
  simpl. destruct i as [|i]; simpl in Hline.
  - injection Hline as ->.
    by rewrite (fill_cells_throws pts row 0 _ dm j t Ht ltac:(lia) Hcol Hbad).
  - destruct (fill_cells parsers pts row 0 (tail (getline_tokens line0)) dm)
      as [dm1| |] eqn:Hcells; simpl; [|done|by apply fill_cells_defined in Hcells].
    apply (IH (S row) dm1 i Hline Ht); [lia|done|done].
Qed.

(** X15: [load_distances] hands to [std::stod] exactly the cells that lie
    in the first [n] rows after the header and the first [n] columns after
    the row label, [n] being the number of loaded points.  If [std::stod]
    accepts each of these cells the call returns and reports the table as
    loaded, whatever the other rows and columns hold; if it rejects one of
    them the exception leaves the call.  A call that returns keeps the
    points and the settings, and every entry of the table whose two keys are
    not both identifiers of loaded points. *)
Theorem load_distances_only_loaded_ids filename self lines :
  fs filename = Some lines ->
  ((forall i j line t,
      i < length (points self) -> j < length (points self) ->
      tail lines !! i = Some line ->
      tail (getline_tokens line) !! j = Some t ->
      is_Some (stod parsers t)) ->
   exists self', load_distances parsers fs filename self
                 = Returns (self', [LoadedDistances]))
  /\ (forall i j line t,
        i < length (points self) -> j < length (points self) ->
        tail lines !! i = Some line ->
        tail (getline_tokens line) !! j = Some t ->
        stod parsers t = None ->
        load_distances parsers fs filename self = Throws)
  /\ (forall self' out,
        load_distances parsers fs filename self = Returns (self', out) ->
        points self' = points self
        /\ k self' = k self
        /\ min_distance_km self' = min_distance_km self
        /\ exclude_land_types self' = exclude_land_types self
        /\ max_slope self' = max_slope self
        /\ forall from_key to_key,
             ~ (exists p q, p ∈ points self /\ q ∈ points self
                            /\ from_key = to_string (id p)
                            /\ to_key = to_string (id q)) ->
             (row ← distance_matrix self' !! from_key; row !! to_key)
             = (row ← distance_matrix self !! from_key; row !! to_key)).
Proof.
  intros Hfile. unfold load_distances. rewrite Hfile. split; [|split].
  - intros Hcells.
    destruct (fill_rows_returns (points self) 0 (tail lines) (distance_matrix self))
      as [dm ->]; [|by eexists].
    intros i j line t Hline Ht Hrow Hcol. by apply (Hcells i j line t).
  - intros i j line t Hi Hj Hline Ht Hbad.
    by rewrite (fill_rows_throws (points self) 0 (tail lines) _ i j line t).
  - intros self' out Hload.
    apply outcome_bind_returns in Hload as (dm & Hdm & Hload).
    injection Hload as <- <-. simpl. do 5 (split; [done|]).
    intros fk tk Hother.
    change (matrix_entry dm fk tk = matrix_entry (distance_matrix self) fk tk).
    apply (fill_rows_frame _ _ _ _ _ _ _ Hdm).
    intros r c Hr Hc -> ->. destruct Hother.
    exists (points self !!! r), (points self !!! c).
    repeat split; try done; by apply list_elem_of_lookup_total_2.
Qed.

End LoadingProperties.

(** *** The distance oracle against the table and the points *)

(** C7: [get_distance] answers the entry the table holds under the key of
    the first identifier and, in that row, the key of the second, whenever
    there is one.  Storing a distance for an ordered pair makes it the
    answer for that pair and changes the answer for no other pair, the
    reversed pair included, so the table need not be symmetric.  For two
    loaded points with unique identifiers and no entry, the answer is the
    haversine value of their coordinates: 6371000 times the central angle
    [2 atan2 (sqrt a, sqrt (1 - a))].  The function is total: a missing
    entry is no error. *)
Theorem get_distance_table_then_haversine libm self :
  (forall from_id to_id row d,
     distance_matrix self !! to_string from_id = Some row ->
     row !! to_string to_id = Some d ->
     get_distance libm self from_id to_id = d)
  /\ (forall from_id to_id d,
        get_distance libm (store_distance self from_id to_id d) from_id to_id = d
        /\ forall from_id' to_id',
             (from_id', to_id') <> (from_id, to_id) ->
             get_distance libm (store_distance self from_id to_id d)
                          from_id' to_id'
             = get_distance libm self from_id' to_id')
  /\ (forall i j p q,
        NoDup (map id (points self)) ->
        points self !! i = Some p ->
        points self !! j = Some q ->
        (forall row, distance_matrix self !! to_string (id p) = Some row ->
                     row !! to_string (id q) = None) ->
        let dlat := ((lat q - lat p) * M_PI / 180.0)%float in
        let dlon := ((lon q - lon p) * M_PI / 180.0)%float in
        let a :=
          (sin libm (dlat / 2) * sin libm (dlat / 2)
           + cos libm (lat p * M_PI / 180.0) * cos libm (lat q * M_PI / 180.0)
             * sin libm (dlon / 2) * sin libm (dlon / 2))%float in
        get_distance libm self (id p) (id q)
        = (6371000 * (2 * atan2 libm (PrimFloat.sqrt a)
                                     (PrimFloat.sqrt (1 - a))))%float).
Proof.
  split; [|split].
  - intros from_id to_id row d Hrow Hd.
    unfold get_distance, table_entry. rewrite Hrow. simpl. by rewrite Hd.
  - intros from_id to_id d. split.
    + unfold get_distance, table_entry, store_distance. simpl.
      fold (matrix_entry
              (matrix_store (distance_matrix self) (to_string from_id)
                            (to_string to_id) d)
              (to_string from_id) (to_string to_id)).
      rewrite matrix_entry_store. by rewrite decide_True.
    + intros from_id' to_id' Hother.
      unfold get_distance, table_entry, store_distance. simpl.
      fold (matrix_entry
              (matrix_store (distance_matrix self) (to_string from_id)
                            (to_string to_id) d)
              (to_string from_id') (to_string to_id')).
      rewrite matrix_entry_store. rewrite decide_False; [done|].
      intros [Hfrom Hto]. unfold to_string in Hfrom, Hto.
      apply (inj pretty) in Hfrom. apply (inj pretty) in Hto.
      destruct Hother. congruence.
  - intros i j p q Hnd Hp Hq Hnone dlat dlon a.
    assert (find_endpoints self (id p) (id q) = (p, q)) as Hends.
    { apply find_endpoints_unique; [done|..];
        eapply list_elem_of_lookup_2; eauto. }
    unfold get_distance, table_entry.
    destruct (distance_matrix self !! to_string (id p)) as [row|] eqn:Hrow; simpl.
    + rewrite (Hnone row eq_refl), Hends. reflexivity.
    + rewrite Hends. reflexivity.
Qed.

Lemma get_distance_table_then_haversine_witness :
  get_distance libm_one_radian (four_sites 2) 1 3 = 50%float
  /\ get_distance libm_one_radian (store_distance loaded_sites 1 3 7) 1 3 = 7%float
  /\ get_distance libm_one_radian (store_distance loaded_sites 1 3 7) 3 1
     = 6371000%float
  /\ NoDup (map id (points loaded_sites))
  /\ get_distance libm_one_radian loaded_sites 1 3 = 6371000%float.
Proof.
  assert (NoDup (map id (points loaded_sites))) as Hnd.
  { apply (bool_decide_unpack _). vm_compute. exact I. }
  destruct (get_distance_table_then_haversine libm_one_radian (four_sites 2))
    as (Hentry & _ & _).
  destruct (get_distance_table_then_haversine libm_one_radian loaded_sites)
    as (_ & Hstore & Hfallback).
  assert (get_distance libm_one_radian loaded_sites 3 1 = 6371000%float) as Hback.
  { refine (eq_trans (Hfallback 2 0 (site 3 3) (site 1 2) Hnd eq_refl eq_refl _) _).
    - intros row Hrow. vm_compute in Hrow. discriminate.
    - vm_compute. reflexivity. }
  split.
  { eapply Hentry; vm_compute; reflexivity. }
  split; [exact (proj1 (Hstore 1%Z 3%Z 7%float))|].
  split.
  { rewrite (proj2 (Hstore 1%Z 3%Z 7%float) 3%Z 1%Z) by discriminate.
    exact Hback. }
  split; [exact Hnd|].
  refine (eq_trans (Hfallback 0 2 (site 1 2) (site 3 3) Hnd eq_refl eq_refl _) _).
  - intros row Hrow. vm_compute in Hrow. discriminate.
  - vm_compute. reflexivity.
Defined.

(** *** Reporting *)

Section ReportingProperties.

Variable libm : Libm.
Variable self : KMedoidsOptimizer.

Lemma vector_at_nat {A} (v : list A) (n : nat) :
  vector_at v (Z.of_nat n)
  = match v !! n with
    | Some x => Returns x
    | None => Undefined
    end.
Proof.
  unfold vector_at. rewrite (proj2 (Z.leb_le 0 (Z.of_nat n))) by lia.
  by rewrite Nat2Z.id.
Qed.

Lemma center_lines_in_range medoids :
  (forall m, m ∈ medoids -> m < length (points self)) ->
  center_lines self medoids
  = Returns (map (fun m => CenterLine (point_at self m)) medoids).
Proof.
  induction medoids as [|m medoids IH]; intros Hrange; simpl; [done|].
  rewrite vector_at_nat.
  rewrite (list_lookup_lookup_total_lt (points self) m) by (apply Hrange; by left).
  simpl. rewrite IH; [done|]. intros m' Hm'. apply Hrange. by right.
Qed.

(** The lines for a list of points: undefined as soon as one point has no
    medoid below [DBL_MAX], else one line per point naming a medoid that no
    other medoid beats. *)
Lemma assignment_lines_cases medoids ps :
  (forall m, m ∈ medoids -> m < length (points self)) ->
  (assignment_lines self medoids ps
     (map (fun p => assign_scan libm self p 0 medoids DBL_MAX (-1)) ps) = Undefined
   /\ exists p, p ∈ ps
        /\ forall m, m ∈ medoids ->
             PrimFloat.ltb (distance_from libm self p m) DBL_MAX = false)
  \/ (exists assigned,
        assignment_lines self medoids ps
          (map (fun p => assign_scan libm self p 0 medoids DBL_MAX (-1)) ps)
        = Returns assigned
        /\ Forall2
             (fun p l =>
                exists m, m ∈ medoids
                  /\ flt (distance_from libm self p m) DBL_MAX
                  /\ l = AssignmentLine (id p) (id (point_at self m))
                  /\ forall m', m' ∈ medoids ->
                       PrimFloat.ltb (distance_from libm self p m')
                                     (distance_from libm self p m) = false)
             ps assigned).
Proof.
  intros Hrange. induction ps as [|p ps IH]; simpl.
  - right. exists []. split; [done|constructor].
  - destruct (assign_scan_spec libm self p 0 medoids DBL_MAX (-1))
      as [[-> Hnone]|(j & m & -> & Hm & Hlt & Hbest & _)].
    + left. split; [done|]. exists p. split; [by left|done].
    + simpl. rewrite vector_at_nat, Hm. simpl. rewrite vector_at_nat.
      assert (m ∈ medoids) as Hin by (eapply list_elem_of_lookup_2; eauto).
      rewrite (list_lookup_lookup_total_lt (points self) m) by by apply Hrange.
      simpl.
      destruct IH as [[-> (p' & Hp' & Hnone)]|(assigned & -> & Hall)].
      * left. split; [done|]. exists p'. split; [by right|done].
      * right. eexists. split; [done|]. constructor; [|done].
        exists m. split; [done|]. split; [done|]. split; [done|].
        intros m' Hm'. apply list_elem_of_lookup in Hm' as [j' Hj']. eauto.
Qed.

(** X16: for medoid indices in range [print_results] throws nothing.  It is
    without defined behaviour exactly when some point has no medoid at a
    distance below [DBL_MAX] (its assignment is -1 and indexes the medoid
    list); otherwise it writes one line per medoid in order, then one line
    per point naming a medoid that no other medoid is strictly nearer to,
    then the total cost it was given. *)
Theorem print_results_outcome medoids total_cost :
  (forall m, m ∈ medoids -> m < length (points self)) ->
  print_results libm self medoids total_cost <> Throws
  /\ (print_results libm self medoids total_cost = Undefined <->
      exists p, p ∈ points self
        /\ forall m, m ∈ medoids ->
             PrimFloat.ltb (distance_from libm self p m) DBL_MAX = false)
  /\ (forall lines,
        print_results libm self medoids total_cost = Returns lines ->
        exists assigned,
          lines = [BestCentersHeader]
                  ++ map (fun m => CenterLine (point_at self m)) medoids
                  ++ [AssignmentsHeader] ++ assigned
                  ++ [TotalCostLine total_cost]
          /\ Forall2
               (fun p l =>
                  exists m, m ∈ medoids
                    /\ l = AssignmentLine (id p) (id (point_at self m))
                    /\ forall m', m' ∈ medoids ->
                         PrimFloat.ltb (distance_from libm self p m')
                                       (distance_from libm self p m) = false)
               (points self) assigned).
Proof.
  intros Hrange. unfold print_results.
  rewrite center_lines_in_range by done. simpl.
  change (get_assignments libm self medoids)
    with (map (fun p => assign_scan libm self p 0 medoids DBL_MAX (-1))
              (points self)).
  destruct (assignment_lines_cases medoids (points self) Hrange)
    as [[-> Hbad]|(assigned & -> & Hall)]; simpl.
  - split; [done|]. split; [done|]. done.
  - split; [done|]. split.
    + split; [done|]. intros (p & Hp & Hnone).
      apply list_elem_of_lookup in Hp as [i Hi].
      destruct (Forall2_lookup_l _ _ _ _ _ Hall Hi) as (l & _ & m & Hm & Hlt & _).
      specialize (Hnone m Hm). unfold flt in Hlt. congruence.
    + intros lines [= <-]. exists assigned. split; [done|].
      eapply Forall2_impl; [exact Hall|].
      intros p l (m & Hm & _ & Hl & Hbest). by exists m.
Qed.

End ReportingProperties.

(** *** The entry point *)

Section MainProperties.

Variable libm : Libm.
Variable parsers : Parsers.
Variable fs : string -> option (list string).
Context {G : Type} `{UniformRng G}.

Lemma print_results_last self medoids cost lines :
  print_results libm self medoids cost = Returns lines ->
  last lines = Some (TotalCostLine cost).
Proof.
  unfold print_results. intros Hprint.
  apply outcome_bind_returns in Hprint as (centers & _ & Hprint).
  apply outcome_bind_returns in Hprint as (assigned & _ & Hprint).
  injection Hprint as <-.
  by rewrite last_cons, last_app, last_cons, last_snoc.
Qed.

(** X17: when [main] returns, its status is 0 or 1.  With fewer than four
    arguments it is 1 and only the usage line is written, before any
    argument is parsed or file opened.  Otherwise it is 0 exactly when a
    report was written, which then ends with the total cost, and 1 when the
    last line says that no solution was found. *)
Theorem main_exit_status argv (rng : G) :
  (length argv < 5 ->
   main libm parsers fs argv rng = Returns (1%Z, [Usage (default "" (argv !! 0))]))
  /\ (forall code out,
        main libm parsers fs argv rng = Returns (code, out) ->
        5 <= length argv ->
        (code = 0%Z /\ exists c, last out = Some (Report (TotalCostLine c)))
        \/ (code = 1%Z /\ last out = Some NoSolution)).
Proof.
  split.
  - intros Hargs. unfold main. by rewrite (proj2 (Nat.ltb_lt _ _) Hargs).
  - intros code out Hmain Hargs. unfold main in Hmain.
    rewrite (proj2 (Nat.ltb_ge _ _) Hargs) in Hmain.
    apply outcome_bind_returns in Hmain as (k' & _ & Hmain).
    apply outcome_bind_returns in Hmain as (md & _ & Hmain).
    apply outcome_bind_returns in Hmain as (ms & _ & Hmain).
    apply outcome_bind_returns in Hmain as ([o1 out1] & _ & Hmain).
    apply outcome_bind_returns in Hmain as ([o2 out2] & _ & Hmain).
    apply outcome_bind_returns in Hmain as ([o3 out3] & _ & Hmain).
    destruct (optimize libm o3 rng) as [[[medoids cost] rng'] out'].
    destruct medoids as [|m medoids].
    + injection Hmain as <- <-. right. split; [done|]. apply last_snoc.
    + apply outcome_bind_returns in Hmain as (report & Hreport & Hmain).
      injection Hmain as <- <-. left. split; [done|]. exists cost.
      apply print_results_last in Hreport.
      destruct report as [|l report] using rev_ind; [done|].
      rewrite last_snoc in Hreport. injection Hreport as ->.
      rewrite last_app, (map_app Report). simpl map. by rewrite last_snoc.
Qed.

Lemma optimize_no_points self (rng : G) :
  points self = [] -> (optimize libm self rng).1.1.1 = [].
Proof.
  intros Hempty. rewrite optimize_medoids. destruct (infeasible self); [done|].
  assert ((filter_candidates self).1 = []) as -> by (simpl; by rewrite Hempty).
  apply length_zero_iff_nil. rewrite local_search_length.
  unfold search_start. cbn [best_medoids].
  destruct (initialize_medoids_length_le libm self [] rng) as [_ Hlen].
  simpl in Hlen. lia.
Qed.

Lemma load_zone_features_no_points filename self self' out :
  points self = [] ->
  load_zone_features parsers fs filename self = Returns (self', out) ->
  points self' = [].
Proof.
  intros Hempty. unfold load_zone_features.
  destruct (fs filename) as [lines|]; [|by intros [= <- _]].
  intros Hload. apply outcome_bind_returns in Hload as (zones & _ & Hload).
  injection Hload as <- _. simpl. by rewrite Hempty.
Qed.

Lemma load_distances_points filename self self' out :
  load_distances parsers fs filename self = Returns (self', out) ->
  points self' = points self.
Proof.
  unfold load_distances.
  destruct (fs filename) as [lines|]; [|by intros [= <- _]].
  intros Hload. apply outcome_bind_returns in Hload as (dm & _ & Hload).
  by injection Hload as <- _.
Qed.

(** X18: when the resource-points file cannot be opened, [main] carries on
    with no points, and if it returns at all it returns 1 after writing that
    no solution was found, whatever [k] and the other files are. *)
Theorem main_without_points_file argv (rng : G) code out :
  5 <= length argv ->
  fs (default "" (argv !! 1)) = None ->
  main libm parsers fs argv rng = Returns (code, out) ->
  code = 1%Z
  /\ last out = Some NoSolution
  /\ Load (ErrCannotOpen (default "" (argv !! 1))) ∈ out.
Proof.
  intros Hargs Hfile Hmain. unfold main in Hmain.
  rewrite (proj2 (Nat.ltb_ge _ _) Hargs) in Hmain.
  apply outcome_bind_returns in Hmain as (k' & _ & Hmain).
  apply outcome_bind_returns in Hmain as (md & _ & Hmain).
  apply outcome_bind_returns in Hmain as (ms & _ & Hmain).
  apply outcome_bind_returns in Hmain as ([o1 out1] & Hload1 & Hmain).
  apply outcome_bind_returns in Hmain as ([o2 out2] & Hload2 & Hmain).
  apply outcome_bind_returns in Hmain as ([o3 out3] & Hload3 & Hmain).
  unfold load_points in Hload1. rewrite Hfile in Hload1.
  injection Hload1 as <- <-.
  apply load_zone_features_no_points in Hload2; [|done].
  apply load_distances_points in Hload3. rewrite Hload2 in Hload3.
  pose proof (optimize_no_points o3 rng Hload3) as Hnone.
  destruct (optimize libm o3 rng) as [[[medoids cost] rng'] out'].
  simpl in Hnone. subst medoids. injection Hmain as <- <-.
  split; [done|]. split; [by rewrite last_cons, last_snoc|]. by left.
Qed.

End MainProperties.

(** ** The further properties on concrete runs *)

(** The loaders feed the search: from the three sample files [main] finds
    sites 3 and 1 at a cost of 40 km and returns 0. *)
Example main_on_sample_files :
  exists out, main libm_nan parsers_whole sample_files sample_argv [1; 0]
              = Returns (0%Z, out)
              /\ Run (EvIteration 1 40000) ∈ out
              /\ Report (AssignmentLine 2 1) ∈ out.
Proof.
  eexists. split; [vm_compute; reflexivity|].
  split; apply list_elem_of_In; vm_compute; tauto.
Qed.

Lemma initializer_short_only_if_stuck_witness :
  [0; 1] <> []
  /\ (1 <= k one_way_sites)%Z
  /\ ((initialize_medoids libm_nan one_way_sites [0; 1] [1]).2 = []
      \/ (initialize_medoids libm_nan one_way_sites [0; 1] [1]).2
         = [EvCannotFind 2]).
Proof.
  split; [discriminate|]. split; [vm_compute; discriminate|].
  destruct (initializer_short_only_if_stuck libm_nan one_way_sites [0; 1] [1])
    as [[_ Hout]|(_ & Hout & _)];
    [discriminate|vm_compute; discriminate|by left|by right].
Defined.

Lemma optimize_unconstrained_count_witness :
  infeasible (four_sites_apart 2 0.0078125) = false
  /\ (1 <= k (four_sites_apart 2 0.0078125) < 2 ^ 31)%Z
  /\ min_distance_m (four_sites_apart 2 0.0078125) = 7.8125%float
  /\ too_close libm_nan (four_sites_apart 2 0.0078125) 0 0 = true
  /\ (forall a b,
        a ∈ (filter_candidates (four_sites_apart 2 0.0078125)).1 ->
        b ∈ (filter_candidates (four_sites_apart 2 0.0078125)).1 ->
        a <> b -> too_close libm_nan (four_sites_apart 2 0.0078125) a b = false)
  /\ length (optimize libm_nan (four_sites_apart 2 0.0078125) [1; 0]).1.1.1 = 2.
Proof.
  assert (forall a b,
            a ∈ (filter_candidates (four_sites_apart 2 0.0078125)).1 ->
            b ∈ (filter_candidates (four_sites_apart 2 0.0078125)).1 ->
            a <> b ->
            too_close libm_nan (four_sites_apart 2 0.0078125) a b = false) as Hfar.
  { intros a b Ha Hb Hne.
    list_cases Ha; list_cases Hb; try done; vm_compute; reflexivity. }
  split; [vm_compute; reflexivity|].
  split; [split; vm_compute; [discriminate|reflexivity]|].
  split; [vm_compute; reflexivity|]. split; [vm_compute; reflexivity|].
  split; [exact Hfar|].
  apply (optimize_unconstrained_count libm_nan (four_sites_apart 2 0.0078125) [1; 0]).
  - vm_compute. reflexivity.
  - split; vm_compute; [discriminate|reflexivity].
  - exact Hfar.
Defined.

Lemma optimize_not_worse_than_start_witness :
  infeasible (four_sites 2) = false
  /\ ((optimize libm_nan (four_sites 2) [1; 0]).1.1
      = ((initialize_medoids libm_nan (four_sites 2)
            (filter_candidates (four_sites 2)).1 [1; 0]).1.1,
         calculate_total_cost libm_nan (four_sites 2)
           (initialize_medoids libm_nan (four_sites 2)
              (filter_candidates (four_sites 2)).1 [1; 0]).1.1)
      \/ flt (optimize libm_nan (four_sites 2) [1; 0]).1.1.2
             (calculate_total_cost libm_nan (four_sites 2)
                (initialize_medoids libm_nan (four_sites 2)
                   (filter_candidates (four_sites 2)).1 [1; 0]).1.1)).
Proof.
  split; [vm_compute; reflexivity|].
  apply (optimize_not_worse_than_start libm_nan (four_sites 2) [1; 0]).
  vm_compute. reflexivity.
Defined.

Lemma local_search_swap_optimal_witness :
  improved (local_search libm_nan (four_sites 2) [0; 1; 2; 3]
              (search_start libm_nan (four_sites 2) [1; 0] [])) = false
  /\ swap_optimal libm_nan (four_sites 2) [0; 1; 2; 3]
       (best_medoids (local_search libm_nan (four_sites 2) [0; 1; 2; 3]
                        (search_start libm_nan (four_sites 2) [1; 0] [])))
       (best_cost (local_search libm_nan (four_sites 2) [0; 1; 2; 3]
                     (search_start libm_nan (four_sites 2) [1; 0] []))).
Proof.
  split; [vm_compute; reflexivity|].
  apply (local_search_swap_optimal libm_nan (four_sites 2) [0; 1; 2; 3] [1; 0] []).
  left. vm_compute. reflexivity.
Defined.

Lemma getline_tokens_join_witness :
  Forall (fun f => has_comma f = false) ["water"; ""; "forest"]
  /\ getline_tokens "water,,forest" = ["water"; ""; "forest"]
  /\ getline_tokens "water,,forest," = ["water"; ""; "forest"].
Proof.
  assert (Forall (fun f => has_comma f = false) ["water"; ""; "forest"]) as Hfree
    by (repeat constructor).
  split; [exact Hfree|].
  destruct (getline_tokens_join ["water"; ""; "forest"] Hfree) as [Hplain Hcomma].
  split; [apply Hplain; discriminate|apply Hcomma; discriminate].
Defined.

Lemma load_points_appends_witness :
  ragged_files "points.csv"
  = Some ["id,latitude,longitude,resource_quantity"; "7,1,2,3,4"; ""; "9,5"]
  /\ (exists self' out,
        load_points parsers_whole ragged_files "points.csv" (fresh_optimizer 2)
        = Returns (self', out)
        /\ length (points self') = 3
        /\ points self' !! 1 = Some Point_default
        /\ exists p,
             points self' !! 2 = Some p
             /\ id p = 9%Z /\ lat p = 5%float /\ lon p = 0%float
             /\ resource_quantity p = 0%float)
  /\ load_points parsers_whole sample_files "zones.csv" (fresh_optimizer 2)
     = Throws.
Proof.
  split; [reflexivity|]. split.
  - destruct (load_points parsers_whole ragged_files "points.csv"
                (fresh_optimizer 2)) as [[self' out]| |] eqn:Hload;
      [|vm_compute in Hload; discriminate|vm_compute in Hload; discriminate].
    exists self', out. split; [reflexivity|].
    destruct (load_points_appends parsers_whole ragged_files "points.csv"
                (fresh_optimizer 2)) as (_ & Hreturns & _).
    destruct (Hreturns _ self' out eq_refl Hload)
      as (Hlen & _ & Hfields & Hblank & _).
    split; [exact Hlen|]. split; [exact (Hblank 1 eq_refl)|].
    destruct (Hfields 2 "9,5" eq_refl) as (p & Hp & Hid & Hlat & Hlon & Hq & _).
    exists p. split; [exact Hp|].
    vm_compute in Hid. vm_compute in Hlat. vm_compute in Hlon.
    vm_compute in Hq. injection Hid as Hid. injection Hlat as Hlat.
    repeat split; try assumption; symmetry; assumption.
  - destruct (load_points_appends parsers_whole sample_files "zones.csv"
                (fresh_optimizer 2)) as (_ & _ & Hthrows).
    apply (Hthrows _ 0 "2,5,100,water" 3 "water" eq_refl eq_refl eq_refl).
    right. split; [lia|reflexivity].
Defined.

Lemma load_zone_features_merges_witness :
  exists self' out,
    load_zone_features parsers_whole sample_files "zones.csv" loaded_sites
    = Returns (self', out)
    /\ points self' !! 0 = Some (site 1 2)
    /\ exists p',
         points self' !! 1 = Some p'
         /\ id p' = 2%Z /\ slope p' = 7%float /\ elevation p' = 120%float
         /\ land_type p' = "forest".
Proof.
  destruct (load_zone_features parsers_whole sample_files "zones.csv" loaded_sites)
    as [[self' out]| |] eqn:Hload;
    [|vm_compute in Hload; discriminate|vm_compute in Hload; discriminate].
  exists self', out. split; [reflexivity|].
  destruct (load_zone_features_merges parsers_whole sample_files "zones.csv"
              loaded_sites _ self' out eq_refl Hload) as (_ & Hpoints).
  split.
  - destruct (Hpoints 0 (site 1 2) eq_refl)
      as (p' & Hp' & _ & _ & _ & _ & Hsame & _).
    rewrite Hp'. f_equal. apply Hsame.
    intros [|[|[|n]]] line Hline; simpl in Hline; try discriminate;
      injection Hline as <-; intros Hf; vm_compute in Hf; discriminate.
  - destruct (Hpoints 1 (site 2 1) eq_refl)
      as (p' & Hp' & Hid & _ & _ & _ & _ & Hlast).
    exists p'. split; [exact Hp'|]. split; [exact Hid|].
    destruct (Hlast 1 "2,7,120,forest" eq_refl eq_refl) as (Hsl & Hel & Hlt).
    + intros [|[|[|n']]] line' Hn' Hline'; simpl in Hline'; try discriminate;
        try lia.
      injection Hline' as <-. intros Hf. vm_compute in Hf. discriminate.
    + vm_compute in Hsl. vm_compute in Hel. vm_compute in Hlt.
      injection Hsl as Hsl. injection Hel as Hel. injection Hlt as Hlt.
      repeat split; symmetry; assumption.
Defined.

Lemma load_distances_then_get_distance_witness :
  NoDup (map id (points loaded_sites))
  /\ exists self' out,
       load_distances parsers_whole sample_files "roads.csv" loaded_sites
       = Returns (self', out)
       /\ get_distance libm_nan self' 1 3 = (50 * 1000)%float.
Proof.
  assert (NoDup (map id (points loaded_sites))) as Hnd.
  { apply (bool_decide_unpack _). vm_compute. exact I. }
  split; [exact Hnd|].
  destruct (load_distances parsers_whole sample_files "roads.csv" loaded_sites)
    as [[self' out]| |] eqn:Hload;
    [|vm_compute in Hload; discriminate|vm_compute in Hload; discriminate].
  exists self', out. split; [reflexivity|].
  apply (load_distances_then_get_distance parsers_whole sample_files libm_nan
           "roads.csv" loaded_sites _ self' out 0 2 (site 1 2) (site 3 3)
           "1,0,10,50,80" "50" 50%float Hnd eq_refl Hload);
    vm_compute; reflexivity.
Defined.

Lemma load_distances_only_loaded_ids_witness :
  ragged_files "roads.csv"
  = Some [",1,2,3,4,5";
          "1,0,10,50,80,n/a"; "2,10,0,40,70,n/a"; "3,50,40,0,30,n/a";
          "4,80,70,30,0,n/a"; "5,n/a,n/a,n/a,n/a,n/a"]
  /\ length (points loaded_sites) = 4
  /\ (exists self',
        load_distances parsers_whole ragged_files "roads.csv" loaded_sites
        = Returns (self', [LoadedDistances]))
  /\ load_distances parsers_whole sample_files "zones.csv" loaded_sites = Throws.
Proof.
  split; [reflexivity|]. split; [reflexivity|]. split.
  - destruct (load_distances_only_loaded_ids parsers_whole ragged_files
                "roads.csv" loaded_sites _ eq_refl) as (Hreturns & _ & _).
    apply Hreturns. intros i j line t Hi Hj Hline Ht. simpl in Hi, Hj.
    destruct i as [|[|[|[|i]]]]; try lia; simpl in Hline; injection Hline as <-;
      (destruct j as [|[|[|[|j]]]]; try lia; vm_compute in Ht;
       injection Ht as <-; eexists; vm_compute; reflexivity).
  - destruct (load_distances_only_loaded_ids parsers_whole sample_files
                "zones.csv" loaded_sites _ eq_refl) as (_ & Hthrows & _).
    apply (Hthrows 0 2 "2,5,100,water" "water"); try reflexivity; simpl; lia.
Defined.

Lemma print_results_outcome_witness :
  (forall m, m ∈ [0; 2] -> m < length (points (four_sites 2)))
  /\ print_results libm_nan (four_sites 2) [0; 2] 40 <> Throws.
Proof.
  assert (forall m, m ∈ [0; 2] -> m < length (points (four_sites 2))) as Hrange.
  { intros m Hm. list_cases Hm; simpl; lia. }
  split; [exact Hrange|].
  exact (proj1 (print_results_outcome libm_nan (four_sites 2) [0; 2] 40 Hrange)).
Defined.

Lemma main_without_points_file_witness :
  5 <= length ["centers"; "nope.csv"; "zones.csv"; "roads.csv"; "2"]
  /\ sample_files "nope.csv" = None
  /\ exists code out,
       main libm_nan parsers_whole sample_files
         ["centers"; "nope.csv"; "zones.csv"; "roads.csv"; "2"] [1; 0]
       = Returns (code, out)
       /\ code = 1%Z.
Proof.
  split; [simpl; lia|]. split; [reflexivity|].
  destruct (main libm_nan parsers_whole sample_files
              ["centers"; "nope.csv"; "zones.csv"; "roads.csv"; "2"] [1; 0])
    as [[code out]| |] eqn:Hmain;
    [|vm_compute in Hmain; discriminate|vm_compute in Hmain; discriminate].
  exists code, out. split; [reflexivity|].
  destruct (main_without_points_file libm_nan parsers_whole sample_files
              ["centers"; "nope.csv"; "zones.csv"; "roads.csv"; "2"] [1; 0]
              code out ltac:(simpl; lia) eq_refl Hmain) as [Hcode _].
  exact Hcode.
Defined.
